(** * Emergent proto-learning simulator: a shallow embedding

    The development follows [emergent_protolearning.py]: a population of
    neurons carrying a discrete state and a position, a "tension spider"
    that classifies every neuron into a phase from the variance of its
    neighbours' states, a predator that enters periodically and removes
    nearby neurons, and a cluster detector.

    Conventions of the embedding.
    - Python floats are idealised as exact rationals ([Q]) in the model
      of the step; every arithmetic result is kept in lowest terms, which
      changes no value.  The classifier is given a second time with
      every operation followed by a rounding ([Rounded]), for the
      statements on which rounding bears; [Binary64.round] is the
      rounding to the nearest double.
    - The [random] module is an oracle: a tape of raw draws, each library
      call consuming one draw and mapping it into its documented range.
    - [math.cos], [math.sin] and [math.pi] are parameters.
    - Python object references to neurons are indices into the population
      list, which plays the role of the heap: the neighbour lists built at
      the start of a step alias the live neurons.
    - Rendering (matplotlib), the animation driver and printing are left
      out: [update] is the simulation half of the function, lines 145 to
      213, and says nothing of what the drawing calls may raise. *)

From Stdlib Require Import QArith Qround Qabs Qpower ZArith Lia Lqa Permutation.
From stdpp Require Import base list gmap.

(* ------------------------------------------------------------------ *)
(** ** Floats as rationals *)

Module Float.

Definition ltb (a b : Q) : bool := negb (Qle_bool b a).

Definition add (a b : Q) : Q := Qred (a + b).
Definition sub (a b : Q) : Q := Qred (a - b).
Definition mul (a b : Q) : Q := Qred (a * b).
Definition div (a b : Q) : Q := Qred (a / b).
Definition of_int (z : Z) : Q := inject_Z z.

(** [a % 1.0]: Python's float modulo takes the sign of the divisor. *)
Definition mod1 (a : Q) : Q := Qred (a - inject_Z (Qfloor a)).

(** [math.hypot(dx, dy) < r].  The hypotenuse is never negative, so the
    test fails for [r <= 0]; otherwise both sides are squared. *)
Definition hypot_lt (dx dy r : Q) : bool :=
  ltb 0 r && ltb (add (mul dx dx) (mul dy dy)) (mul r r).

(** [int(round(a))]: Python 3 rounds halves to the even neighbour. *)
Definition round (a : Q) : Z :=
  let f := Qfloor a in
  let r := sub a (inject_Z f) in
  if ltb r (1 # 2) then f
  else if ltb (1 # 2) r then (f + 1)%Z
  else if Z.even f then f else (f + 1)%Z.

End Float.

Infix "⊕" := Float.add (at level 50, left associativity).
Infix "⊖" := Float.sub (at level 50, left associativity).
Infix "⊗" := Float.mul (at level 40, left associativity).
Infix "⊘" := Float.div (at level 40, left associativity).
Infix "<.?" := Float.ltb (at level 70, no associativity).

(* ------------------------------------------------------------------ *)
(** ** Rounding to double precision *)

Module Binary64.

(** [floor (log2 |q|)] for [q] other than 0. *)
Definition ilog2 (q : Q) : Z :=
  let n := Z.abs (Qnum q) in
  let d := Z.pos (Qden q) in
  let e := (Z.log2 n - Z.log2 d)%Z in
  if Qle_bool (2 ^ e) (Qabs q) then e else (e - 1)%Z.

(** The double nearest to [q], halves going to the even neighbour: 53
    significant bits, the spacing never below 2^-1074.  Overflow is
    left out; the values met here are far from it. *)
Definition round (q : Q) : Q :=
  if Qeq_bool q 0 then 0
  else
    let p := Z.max (ilog2 q - 52) (-1074) in
    Qred (inject_Z (Float.round (q / 2 ^ p)) * 2 ^ p).

End Binary64.

(** The part of Python's [math] module the program uses. *)
Record MathLib := { pi : Q; cos : Q → Q; sin : Q → Q }.

(* ------------------------------------------------------------------ *)
(** ** The random oracle *)

Record Rng := mkRng { tape : nat → N; cursor : nat }.

Definition Rand (A : Type) : Type := Rng → A * Rng.

Definition ret {A} (a : A) : Rand A := λ g, (a, g).
Definition bind {A B} (m : Rand A) (k : A → Rand B) : Rand B :=
  λ g, let (a, g') := m g in k a g'.

Notation "'let*' x ':=' m 'in' k" := (bind m (λ x, k))
  (at level 10, x pattern, m at level 100, k at level 200).

Module random.

Definition next_raw : Rand N :=
  λ g, (tape g (cursor g), mkRng (tape g) (S (cursor g))).

(** [random.random()]: a multiple of 2^-53 in [0, 1). *)
Definition random : Rand Q :=
  let* r := next_raw in
  ret (Qred (Z.of_N (r mod 2 ^ 53) # 2 ^ 53)).

Definition randbelow (n : N) : Rand N :=
  let* r := next_raw in ret (r mod n)%N.

(** [random.randint(a, b)], both ends included. *)
Definition randint (a b : Z) : Rand Z :=
  let* k := randbelow (Z.to_N (b - a + 1)) in ret (a + Z.of_N k)%Z.

(** [random.choice(seq)] on a non-empty sequence [d :: seq]. *)
Definition choice {A} (d : A) (seq : list A) : Rand A :=
  let* k := randbelow (N.of_nat (length (d :: seq))) in
  ret (nth (N.to_nat k) (d :: seq) d).

(** [random.uniform(a, b)] is [a + (b - a) * random()]. *)
Definition uniform (a b : Q) : Rand Q :=
  let* u := random in ret (a ⊕ (b ⊖ a) ⊗ u).

End random.

(* ------------------------------------------------------------------ *)
(** ** Parameters *)

Record Config := {
  NUM_NEURONS : Z;
  STEPS : Z;
  RADIUS : Q;
  DRIFT : Q;
  NOISE : Q;
  POKE_STEP : Z;
  POKE_NEURON : Z;
  POKE_VALUE : Z;
  PREDATOR_INTERVAL : Z;
  PREDATOR_SPEED : Q;
  PREDATOR_RADIUS : Q
}.

(** The module constants of the program. *)
Definition source_config : Config := {|
  NUM_NEURONS := 20;
  STEPS := 400;
  RADIUS := 1 # 4;
  DRIFT := 1 # 100;
  NOISE := 1 # 20;
  POKE_STEP := 50;
  POKE_NEURON := 5;
  POKE_VALUE := 3;
  PREDATOR_INTERVAL := 100;
  PREDATOR_SPEED := 1 # 20;
  PREDATOR_RADIUS := 1 # 20
|}.

Inductive Phase := SOLID | LIQUID | PLASMA.

Global Instance Phase_eq_dec : EqDecision Phase.
Proof. solve_decision. Defined.

(* ------------------------------------------------------------------ *)
(** ** Neuron *)

Module Neuron.

Record t := mk { x : Q; y : Q; state : Z; phase : Phase; memory : Z }.

Definition set_state (n : t) (s : Z) : t :=
  mk (x n) (y n) s (phase n) (memory n).
Definition set_phase (n : t) (p : Phase) : t :=
  mk (x n) (y n) (state n) p (memory n).
Definition set_memory (n : t) (s : Z) : t :=
  mk (x n) (y n) (state n) (phase n) s.
Definition set_x (n : t) (a : Q) : t :=
  mk a (y n) (state n) (phase n) (memory n).
Definition set_y (n : t) (a : Q) : t :=
  mk (x n) a (state n) (phase n) (memory n).

(** [Neuron.__init__] *)
Definition init : Rand t :=
  let* a := random.random in
  let* b := random.random in
  let* s := random.randint 1 3 in
  ret (mk a b s LIQUID s).

(** [self.distance(other) < r], [other] being anything with coordinates. *)
Definition distance_lt (n : t) (ox oy : Q) (r : Q) : bool :=
  Float.hypot_lt (x n ⊖ ox) (y n ⊖ oy) r.

End Neuron.

(* ------------------------------------------------------------------ *)
(** ** Tension spider *)

Module TensionSpider.

Record t := mk { solid_thresh : Q; plasma_thresh : Q }.

(** [TensionSpider()] with its default arguments. *)
Definition default : t := mk (1 # 5) (4 # 5).

(** [sum(values)] on integers: left to right, starting from 0. *)
Definition sum_int (values : list Z) : Z := foldl Z.add 0%Z values.

(** [sum(values)] on floats. *)
Definition sum_float (values : list Q) : Q := foldl Float.add 0%Q values.

(** [sum((v - sum(values)/len(values))**2 for v in values)/len(values)] *)
Definition variance (values : list Z) : Q :=
  let len := Float.of_int (Z.of_nat (length values)) in
  let mean := Float.of_int (sum_int values) ⊘ len in
  sum_float (map (λ v, let d := Float.of_int v ⊖ mean in d ⊗ d) values) ⊘ len.

(** [apply]: mutates [neuron.phase]; the updated neuron is returned. *)
Definition apply (self : t) (neuron : Neuron.t) (neighbors : list Neuron.t)
  : Neuron.t :=
  match neighbors with
  | [] => Neuron.set_phase neuron PLASMA
  | _ =>
      let values := map Neuron.state neighbors in
      let variance := variance values in
      if variance <.? solid_thresh self then Neuron.set_phase neuron SOLID
      else if plasma_thresh self <.? variance then Neuron.set_phase neuron PLASMA
      else Neuron.set_phase neuron LIQUID
  end.

End TensionSpider.

(** *** The classifier with rounded arithmetic

    Lines 54 to 65 once more, every float operation being the exact one
    followed by the rounding [rnd].  [sum(values)] and [len(values)] are
    integers and exact; their quotient, the conversion of an integer,
    the difference, the square ([**2]), each addition of the outer [sum]
    (left to right from 0) and the last division are rounded once
    each.  Comparisons of floats are exact. *)

Module Rounded.

Section Arith.

Variable rnd : Q → Q.

Definition add (a b : Q) : Q := rnd (a + b).
Definition sub (a b : Q) : Q := rnd (a - b).
Definition mul (a b : Q) : Q := rnd (a * b).
Definition div (a b : Q) : Q := rnd (a / b).
Definition of_int (z : Z) : Q := rnd (inject_Z z).

(** [a / b] on integers: the rounded quotient. *)
Definition div_int (a b : Z) : Q := rnd (inject_Z a / inject_Z b).

Definition sum_float (values : list Q) : Q := foldl add 0%Q values.

(** [sum((v - sum(values)/len(values))**2 for v in values)/len(values)] *)
Definition variance (values : list Z) : Q :=
  let len := Z.of_nat (length values) in
  let mean := div_int (TensionSpider.sum_int values) len in
  div (sum_float (map (λ v, let d := sub (of_int v) mean in mul d d) values))
      (of_int len).

Definition apply (self : TensionSpider.t) (neuron : Neuron.t)
    (neighbors : list Neuron.t) : Neuron.t :=
  match neighbors with
  | [] => Neuron.set_phase neuron PLASMA
  | _ =>
      let values := map Neuron.state neighbors in
      let variance := variance values in
      if variance <.? TensionSpider.solid_thresh self
      then Neuron.set_phase neuron SOLID
      else if TensionSpider.plasma_thresh self <.? variance
      then Neuron.set_phase neuron PLASMA
      else Neuron.set_phase neuron LIQUID
  end.

End Arith.

End Rounded.

(** [plasma_mutate_spider] *)
Definition plasma_mutate_spider (neurons : list Neuron.t) (spider : TensionSpider.t)
  : Rand TensionSpider.t :=
  let plasma_neurons := filter (λ n, Neuron.phase n = PLASMA) neurons in
  match plasma_neurons with
  | [] => ret spider
  | _ =>
      let* s := random.uniform (1 # 10) (2 # 5) in
      let* p := random.uniform (3 # 5) (9 # 10) in
      ret (TensionSpider.mk s p)
  end.

(* ------------------------------------------------------------------ *)
(** ** Predator *)

Module Predator.

Record t := mk { x : Q; y : Q; neurons_eaten : Z; hunger_timer : Z }.

(** [Predator.__init__] *)
Definition init : Rand t :=
  let* a := random.random in
  let* b := random.random in
  ret (mk a b 0 0).

(** [move]: the teleport draw is made only when [tension > 1.0]
    ([and] short-circuits). *)
Definition move (M : MathLib) (cfg : Config) (self : t) : Rand t :=
  let tension := Float.of_int (hunger_timer self) ⊘ 50 in
  let speed := PREDATOR_SPEED cfg ⊗ (1 ⊕ tension ⊗ 2) in
  let* angle := random.uniform 0 (2 ⊗ pi M) in
  let* jump :=
    (if 1 <.? tension
     then let* u := random.random in ret (u <.? (1 # 5))
     else ret false) in
  let* pos :=
    (if jump
     then let* a := random.random in
          let* b := random.random in ret (a, b)
     else ret (Float.mod1 (x self ⊕ speed ⊗ cos M angle),
               Float.mod1 (y self ⊕ speed ⊗ sin M angle))) in
  ret (mk (fst pos) (snd pos) (neurons_eaten self) (hunger_timer self + 1)).

(** [eat] *)
Definition eat (self : t) : t := mk (x self) (y self) (neurons_eaten self + 1) 0.

End Predator.

(* ------------------------------------------------------------------ *)
(** ** Cluster detection *)

(** [enumerate(l)] *)
Definition enumerate {A} (l : list A) : list (nat * A) := imap pair l.

(** The body of the [for j, m in enumerate(neurons)] loop of
    [detect_clusters].  The comparison is made against [n], the neuron
    that seeded the cluster.  The Python list [to_check] is kept with its
    last element first, so [append] is a cons and [pop] takes the head. *)
Definition scan_step (radius : Q) (n : Neuron.t) (visited : gset nat)
    (acc : gset nat * list nat) (jm : nat * Neuron.t) : gset nat * list nat :=
  let '(cluster, to_check) := acc in
  let '(j, m) := jm in
  if bool_decide (j ∉ visited)
     && bool_decide (Neuron.state n = Neuron.state m)
     && Neuron.distance_lt n (Neuron.x m) (Neuron.y m) radius
  then ({[j]} ∪ cluster, j :: to_check)
  else (cluster, to_check).

Definition scan_neurons (neurons : list Neuron.t) (radius : Q) (n : Neuron.t)
    (visited : gset nat) (cluster : gset nat) (to_check : list nat)
  : gset nat * list nat :=
  foldl (scan_step radius n visited) (cluster, to_check) (enumerate neurons).

(** The [while to_check] loop.  [None] stands for running out of fuel. *)
Fixpoint drain_to_check (fuel : nat) (neurons : list Neuron.t) (radius : Q)
    (n : Neuron.t) (visited cluster : gset nat) (to_check : list nat)
  : option (gset nat * gset nat) :=
  match to_check with
  | [] => Some (visited, cluster)
  | idx :: rest =>
      match fuel with
      | O => None
      | S fuel' =>
          let visited' := {[idx]} ∪ visited in
          let '(cluster', to_check') :=
            scan_neurons neurons radius n visited' cluster rest in
          drain_to_check fuel' neurons radius n visited' cluster' to_check'
      end
  end.

(** The outer loop, over the seeds [(i, n)] still to be looked at. *)
Fixpoint cluster_seeds (fuel : nat) (neurons : list Neuron.t) (radius : Q)
    (seeds : list (nat * Neuron.t)) (visited : gset nat) (clusters : list (gset nat))
  : option (list (gset nat)) :=
  match seeds with
  | [] => Some clusters
  | (i, n) :: seeds' =>
      if bool_decide (i ∈ visited)
      then cluster_seeds fuel neurons radius seeds' visited clusters
      else
        match drain_to_check fuel neurons radius n visited {[i]} [i] with
        | None => None
        | Some (visited', cluster) =>
            cluster_seeds fuel neurons radius seeds' visited' (clusters ++ [cluster])
        end
  end.

(** [detect_clusters(neurons, radius)].  The [while] loop is given more
    passes than there are pairs of neurons, which is more than it makes
    ([detect_clusters_total]). *)
Definition detect_clusters (neurons : list Neuron.t) (radius : Q)
  : option (list (gset nat)) :=
  let len := length neurons in
  cluster_seeds (len * len + len + 1) neurons radius (enumerate neurons) ∅ [].

(* ------------------------------------------------------------------ *)
(** ** The animation step *)

Inductive Exn := IndexError.

Record World := mkWorld {
  neurons : list Neuron.t;
  predator : option Predator.t;
  predator_timer : Z;
  spider : TensionSpider.t
}.

(** Python's [l[i]]: negative indices count from the end. *)
Definition py_index {A} (l : list A) (i : Z) : option nat :=
  let len := Z.of_nat (length l) in
  if ((0 <=? i) && (i <? len))%Z then Some (Z.to_nat i)
  else if ((- len <=? i) && (i <? 0))%Z then Some (Z.to_nat (len + i))
  else None.

(** References held in a neighbour list, read from the live population. *)
Definition deref (store : list Neuron.t) (refs : list nat) : list Neuron.t :=
  omap (λ j, store !! j) refs.

(** A [for i, n in enumerate(neurons)] loop whose body updates the
    population in place and may draw random numbers. *)
Fixpoint for_each (idxs : list nat)
    (body : nat → list Neuron.t → Rand (list Neuron.t)) (store : list Neuron.t)
  : Rand (list Neuron.t) :=
  match idxs with
  | [] => ret store
  | i :: rest => let* store' := body i store in for_each rest body store'
  end.

Section Step.

Variable M : MathLib.
Variable cfg : Config.

(** "Poke neuron" *)
Definition poke (step : Z) (ns : list Neuron.t) : Exn + list Neuron.t :=
  if (step =? POKE_STEP cfg)%Z then
    match py_index ns (POKE_NEURON cfg) with
    | None => inl IndexError
    | Some i =>
        inr (alter (λ n, Neuron.set_phase (Neuron.set_state n (POKE_VALUE cfg)) LIQUID)
                   i ns)
    end
  else inr ns.

(** "Spawn predator" *)
Definition spawn_predator (pred : option Predator.t) (timer : Z)
  : Rand (option Predator.t * Z) :=
  if (timer <=? 0)%Z then
    let* p := Predator.init in ret (Some p, PREDATOR_INTERVAL cfg)
  else ret (pred, (timer - 1)%Z).

(** "Neighborhood discovery": for every neuron the references to the
    other neurons within [RADIUS]. *)
Definition neighbors_of (ns : list Neuron.t) (i : nat) (n : Neuron.t) : list nat :=
  map fst
    (List.filter
       (λ '(j, m), Neuron.distance_lt n (Neuron.x m) (Neuron.y m) (RADIUS cfg)
                   && negb (Nat.eqb j i))
       (enumerate ns)).

Definition discover (ns : list Neuron.t) : list (list nat) :=
  imap (neighbors_of ns) ns.

Definition neighborhood (nbh : list (list nat)) (i : nat) : list nat :=
  default [] (nbh !! i).

(** "Phase updates" *)
Definition phase_update (sp : TensionSpider.t) (nbh : list (list nat))
    (i : nat) (store : list Neuron.t) : list Neuron.t :=
  match store !! i with
  | None => store
  | Some n => <[i := TensionSpider.apply sp n (deref store (neighborhood nbh i))]> store
  end.

Definition phase_updates (sp : TensionSpider.t) (nbh : list (list nat))
    (ns : list Neuron.t) : list Neuron.t :=
  foldl (λ store i, phase_update sp nbh i store) ns (seq 0 (length ns)).

(** "State updates": the body for neuron [i].  Neighbour states are read
    from the live population. *)
Definition next_state (n : Neuron.t) (neighbors : list Neuron.t) : Rand Z :=
  match Neuron.phase n with
  | PLASMA => random.randint 1 3
  | LIQUID =>
      match neighbors with
      | [] => ret (Neuron.state n)
      | _ =>
          let avg := Float.of_int (TensionSpider.sum_int (map Neuron.state neighbors))
                     ⊘ Float.of_int (Z.of_nat (length neighbors)) in
          let* c := random.choice (-1)%Z [0; 1]%Z in
          ret (Z.max 1 (Z.min 3 (Float.round avg + c)))
      end
  | SOLID => ret (Neuron.memory n)
  end.

Definition state_update (nbh : list (list nat)) (i : nat) (store : list Neuron.t)
  : Rand (list Neuron.t) :=
  match store !! i with
  | None => ret store
  | Some n =>
      let* s := next_state n (deref store (neighborhood nbh i)) in
      ret (<[i := Neuron.set_memory (Neuron.set_state n s) s]> store)
  end.

Definition state_updates (nbh : list (list nat)) (ns : list Neuron.t)
  : Rand (list Neuron.t) :=
  for_each (seq 0 (length ns)) (state_update nbh) ns.

(** "Spatial self-organization" *)
Definition drift (n m : Neuron.t) : Neuron.t :=
  let dx := Neuron.x m ⊖ Neuron.x n in
  let dy := Neuron.y m ⊖ Neuron.y n in
  if (Neuron.state n =? Neuron.state m)%Z
  then Neuron.set_y (Neuron.set_x n (Neuron.x n ⊕ DRIFT cfg ⊗ dx))
                    (Neuron.y n ⊕ DRIFT cfg ⊗ dy)
  else Neuron.set_y (Neuron.set_x n (Neuron.x n ⊖ DRIFT cfg ⊗ dx))
                    (Neuron.y n ⊖ DRIFT cfg ⊗ dy).

(** The noise added to both coordinates, each wrapped by [% 1.0]. *)
Definition jitter (n1 : Neuron.t) : Rand Neuron.t :=
  let* u := random.random in
  let n2 := Neuron.set_x n1 (Float.mod1 (Neuron.x n1 ⊕ NOISE cfg ⊗ (u ⊖ (1 # 2)))) in
  let* v := random.random in
  let n3 := Neuron.set_y n2 (Float.mod1 (Neuron.y n2 ⊕ NOISE cfg ⊗ (v ⊖ (1 # 2)))) in
  ret n3.

Definition spatial_update (nbh : list (list nat)) (i : nat) (store : list Neuron.t)
  : Rand (list Neuron.t) :=
  match store !! i with
  | None => ret store
  | Some n =>
      let n1 := foldl drift n (deref store (neighborhood nbh i)) in
      let* n3 := jitter n1 in
      ret (<[i := n3]> store)
  end.

Definition spatial_updates (nbh : list (list nat)) (ns : list Neuron.t)
  : Rand (list Neuron.t) :=
  for_each (seq 0 (length ns)) (spatial_update nbh) ns.

(** "Predator interaction" *)
Definition hunt (p : Predator.t) (ns : list Neuron.t) : list Neuron.t * Predator.t :=
  foldl (λ '(remaining_neurons, p) n,
           if Neuron.distance_lt n (Predator.x p) (Predator.y p) (PREDATOR_RADIUS cfg)
           then (remaining_neurons, Predator.eat p)
           else (remaining_neurons ++ [n], p))
        ([], p) ns.

Definition predator_interaction (pred : option Predator.t) (ns : list Neuron.t)
  : Rand (list Neuron.t * option Predator.t) :=
  match pred with
  | None => ret (ns, None)
  | Some p =>
      let* p' := Predator.move M cfg p in
      let '(remaining_neurons, p'') := hunt p' ns in
      ret (remaining_neurons, Some p'')
  end.

(** [update(frame)], lines 145 to 213: the simulation half.  The drawing
    calls of lines 215 to 238 are left out, with whatever they may
    raise. *)
Definition update (frame : Z) (w : World) (g : Rng) : Exn + World * Rng :=
  match poke frame (neurons w) with
  | inl e => inl e
  | inr ns0 =>
      inr ((let* spawned := spawn_predator (predator w) (predator_timer w) in
            let '(pred, timer) := spawned in
            let nbh := discover ns0 in
            let ns1 := phase_updates (spider w) nbh ns0 in
            let* sp := plasma_mutate_spider ns1 (spider w) in
            let* ns2 := state_updates nbh ns1 in
            let* ns3 := spatial_updates nbh ns2 in
            let* hunted := predator_interaction pred ns3 in
            let '(ns4, pred') := hunted in
            ret (mkWorld ns4 pred' timer sp)) g)
  end.

(** The module-level initialisation: the population, no predator, the
    countdown and the default spider. *)
Fixpoint make_neurons (k : nat) : Rand (list Neuron.t) :=
  match k with
  | O => ret []
  | S k' => let* n := Neuron.init in
            let* rest := make_neurons k' in ret (n :: rest)
  end.

Definition init_world : Rand World :=
  let* ns := make_neurons (Z.to_nat (NUM_NEURONS cfg)) in
  ret (mkWorld ns None (PREDATOR_INTERVAL cfg) TensionSpider.default).

(** The calls [update(0)] to [update(k-1)], one after the other, after
    the initialisation.  The animation driver of line 240, which may
    issue a frame more than once, is not modelled. *)
Fixpoint run (k : nat) (g : Rng) : Exn + World * Rng :=
  match k with
  | O => inr (init_world g)
  | S k' =>
      match run k' g with
      | inl e => inl e
      | inr (w, g') => update (Z.of_nat k') w g'
      end
  end.

End Step.

(* ------------------------------------------------------------------ *)
(** ** Reference notions the statements are compared with *)

Definition Zsum (l : list Z) : Z := fold_right Z.add 0%Z l.
Definition Qsum (l : list Q) : Q := fold_right Qplus 0%Q l.

(** The population variance of integer values: the mean of the squared
    deviations from the mean, divided by the number of values. *)
Definition population_variance (values : list Z) : Q :=
  let n := inject_Z (Z.of_nat (length values)) in
  let mu := (inject_Z (Zsum values) / n)%Q in
  (Qsum (map (λ v, ((inject_Z v - mu) * (inject_Z v - mu))%Q) values) / n)%Q.

(** [a] is within [c] of [b]. *)
Definition within (c a b : Q) : Prop := (- c <= a - b <= c)%Q.

(** A neuron whose state is one of 1, 2, 3 and whose memory holds it. *)
Definition settled (n : Neuron.t) : Prop :=
  (1 <= Neuron.state n <= 3)%Z ∧ Neuron.memory n = Neuron.state n.

(** The fields of a neuron other than its position. *)
Definition core (n : Neuron.t) : Z * Phase * Z :=
  (Neuron.state n, Neuron.phase n, Neuron.memory n).

(** The neurons a predator at [(px, py)] leaves behind. *)
Definition out_of_reach (cfg : Config) (px py : Q) (n : Neuron.t) : bool :=
  negb (Neuron.distance_lt n px py (PREDATOR_RADIUS cfg)).

(** The cumulative count shown for the predator, none having eaten
    nothing. *)
Definition eaten_count (w : World) : Z :=
  match predator w with
  | Some p => Predator.neurons_eaten p
  | None => 0%Z
  end.

(** The population as the classification pass of a step leaves it. *)
Definition classified (cfg : Config) (frame : Z) (w : World) : Exn + list Neuron.t :=
  match poke cfg frame (neurons w) with
  | inl e => inl e
  | inr ns0 => inr (phase_updates (spider w) (discover cfg ns0) ns0)
  end.

(** What neuron [i] finds behind the references [refs] when its turn
    comes in a pass over the population: the neurons below [i] as the
    pass leaves them ([done]), the others as they were when the pass
    began ([todo]). *)
Definition live_view (i : nat) (done todo : list Neuron.t) (refs : list nat)
  : list Neuron.t :=
  omap (λ j, if (j <? i)%nat then done !! j else todo !! j) refs.

(** The configuration [cfg] with another poke target. *)
Definition with_poke_neuron (cfg : Config) (target : Z) : Config := {|
  NUM_NEURONS := NUM_NEURONS cfg;
  STEPS := STEPS cfg;
  RADIUS := RADIUS cfg;
  DRIFT := DRIFT cfg;
  NOISE := NOISE cfg;
  POKE_STEP := POKE_STEP cfg;
  POKE_NEURON := target;
  POKE_VALUE := POKE_VALUE cfg;
  PREDATOR_INTERVAL := PREDATOR_INTERVAL cfg;
  PREDATOR_SPEED := PREDATOR_SPEED cfg;
  PREDATOR_RADIUS := PREDATOR_RADIUS cfg
|}.

(** *** The step under the frozen-snapshot reading

    The state pass and the spatial pass as they would be if they read
    the states from [snapshot], the population as it is when the passes
    of the step begin, instead of the live population. *)

Definition state_update_frozen (snapshot : list Neuron.t) (nbh : list (list nat))
    (i : nat) (store : list Neuron.t) : Rand (list Neuron.t) :=
  match store !! i with
  | None => ret store
  | Some n =>
      let* s := next_state n (deref snapshot (neighborhood nbh i)) in
      ret (<[i := Neuron.set_memory (Neuron.set_state n s) s]> store)
  end.

Definition state_updates_frozen (snapshot : list Neuron.t) (nbh : list (list nat))
    (ns : list Neuron.t) : Rand (list Neuron.t) :=
  for_each (seq 0 (length ns)) (state_update_frozen snapshot nbh) ns.

(** [drift] with the comparison of states replaced by that of the states
    [s] and [t] read from the snapshot. *)
Definition drift_frozen (cfg : Config) (s t : Z) (n m : Neuron.t) : Neuron.t :=
  drift cfg (Neuron.set_state n s) (Neuron.set_state m t).

Definition spatial_update_frozen (cfg : Config) (snapshot : list Neuron.t)
    (nbh : list (list nat)) (i : nat) (store : list Neuron.t) : Rand (list Neuron.t) :=
  match store !! i, snapshot !! i with
  | Some n, Some n0 =>
      let n1 :=
        foldl (λ n r,
                 match store !! r, snapshot !! r with
                 | Some m, Some m0 =>
                     Neuron.set_state
                       (drift_frozen cfg (Neuron.state n0) (Neuron.state m0) n m)
                       (Neuron.state n)
                 | _, _ => n
                 end)
              n (neighborhood nbh i) in
      let* n3 := jitter cfg n1 in
      ret (<[i := n3]> store)
  | _, _ => ret store
  end.

Definition spatial_updates_frozen (cfg : Config) (snapshot : list Neuron.t)
    (nbh : list (list nat)) (ns : list Neuron.t) : Rand (list Neuron.t) :=
  for_each (seq 0 (length ns)) (spatial_update_frozen cfg snapshot nbh) ns.

Definition update_frozen (M : MathLib) (cfg : Config) (frame : Z) (w : World) (g : Rng)
  : Exn + World * Rng :=
  match poke cfg frame (neurons w) with
  | inl e => inl e
  | inr ns0 =>
      inr ((let* spawned := spawn_predator cfg (predator w) (predator_timer w) in
            let '(pred, timer) := spawned in
            let nbh := discover cfg ns0 in
            let ns1 := phase_updates (spider w) nbh ns0 in
            let* sp := plasma_mutate_spider ns1 (spider w) in
            let* ns2 := state_updates_frozen ns0 nbh ns1 in
            let* ns3 := spatial_updates_frozen cfg ns0 nbh ns2 in
            let* hunted := predator_interaction M cfg pred ns3 in
            let '(ns4, pred') := hunted in
            ret (mkWorld ns4 pred' timer sp)) g)
  end.

(** *** Clusters as connected components *)

(** Two neurons are linked when they have the same state and are closer
    than [radius]. *)
Definition linked (ns : list Neuron.t) (radius : Q) (i j : nat) : Prop :=
  ∃ n m, ns !! i = Some n ∧ ns !! j = Some m ∧
         Neuron.state n = Neuron.state m ∧
         Neuron.distance_lt n (Neuron.x m) (Neuron.y m) radius = true.

(** Connected by a path of links. *)
Definition connected (ns : list Neuron.t) (radius : Q) : nat → nat → Prop :=
  rtc (linked ns radius).

Definition same_cluster (clusters : list (gset nat)) (i j : nat) : Prop :=
  ∃ c, c ∈ clusters ∧ i ∈ c ∧ j ∈ c.

(** The test [scan_step] makes on a pair of [enumerate(neurons)], and the
    indices that pass it: the neurons not yet visited that have the
    state of the seed [n] and are within the radius of it. *)
Definition seed_test (radius : Q) (n : Neuron.t) (visited : gset nat)
    (jm : nat * Neuron.t) : bool :=
  bool_decide (jm.1 ∉ visited)
  && bool_decide (Neuron.state n = Neuron.state jm.2)
  && Neuron.distance_lt n (Neuron.x jm.2) (Neuron.y jm.2) radius.

Definition candidates (ns : list Neuron.t) (radius : Q) (n : Neuron.t)
    (visited : gset nat) : list nat :=
  map fst (List.filter (seed_test radius n visited) (enumerate ns)).

(** *** What a run shows *)

Definition after {A} (f : World → A) (r : Exn + World * Rng) : Exn + A :=
  match r with
  | inl e => inl e
  | inr (w, _) => inr (f w)
  end.

(* ------------------------------------------------------------------ *)
(** ** Concrete inputs *)

(** Truncated power series standing for [math.cos] and [math.sin]; they
    are exact at angle 0. *)
Definition series_math : MathLib := {|
  pi := 355 # 113;
  cos := λ a, (1 - a * a / 2 + a * a * a * a / 24)%Q;
  sin := λ a, (a - a * a * a / 6 + a * a * a * a * a / 120)%Q
|}.

Definition zero_tape : Rng := mkRng (λ _, 0%N) 0.

(** Every [random()] is 0.5 up to the spawn of the first predator, whose
    abscissa is drawn as 15/32 (draw 4060 = 60 + 100 * 40); every draw
    after the spatial pass of that step is 0. *)
Definition still_tape : Rng :=
  mkRng (λ i, if (i =? 4060)%nat then (15 * 2 ^ 48)%N
              else if (i <? 4102)%nat then (2 ^ 52)%N
              else 0%N) 0.

(** Three neurons next to each other with states 1, 2 and 3, seventeen
    more with state 1 on one distant spot; then the draws of step 0. *)
Definition trio_tape : Rng :=
  mkRng (λ i, nth i ([2 ^ 50; 2 ^ 50; 0; 3 * 2 ^ 49; 2 ^ 50; 1; 2 ^ 51; 2 ^ 50; 2]
                     ++ concat (replicate 17 [3 * 2 ^ 51; 3 * 2 ^ 51; 0])
                     ++ [2 ^ 52; 2 ^ 52; 2; 2; 1])%N (2 ^ 52)%N) 0.

(** Negative radius, drift and noise and a poke target beyond the
    population. *)
Definition careless_config : Config := {|
  NUM_NEURONS := 20;
  STEPS := 400;
  RADIUS := -1 # 4;
  DRIFT := -1 # 100;
  NOISE := -1 # 20;
  POKE_STEP := 50;
  POKE_NEURON := 99;
  POKE_VALUE := 3;
  PREDATOR_INTERVAL := 100;
  PREDATOR_SPEED := 1 # 20;
  PREDATOR_RADIUS := 1 # 20
|}.

(** Three neurons of state 1 on a line, 3/16 apart. *)
Definition chain : list Neuron.t :=
  [ Neuron.mk 0 0 1 LIQUID 1;
    Neuron.mk (3 # 16) 0 1 LIQUID 1;
    Neuron.mk (3 # 8) 0 1 LIQUID 1 ].

(** The world the program starts from on [still_tape], and the world
    after its first step. *)
Definition start_world : World * Rng := init_world source_config still_tape.

Definition next_world : World * Rng :=
  match update series_math source_config 0 start_world.1 start_world.2 with
  | inr r => r
  | inl _ => start_world
  end.

(** The same on [trio_tape], with the population the classification
    pass of the first step leaves. *)
Definition trio_start : World * Rng := init_world source_config trio_tape.

Definition trio_next : World * Rng :=
  match update series_math source_config 0 trio_start.1 trio_start.2 with
  | inr r => r
  | inl _ => trio_start
  end.

Definition trio_classified : list Neuron.t :=
  match classified source_config 0 trio_start.1 with
  | inr ns => ns
  | inl _ => []
  end.

(** The neighbour lists of that step, and the spider and the oracle its
    state pass starts with. *)
Definition trio_neighborhoods : list (list nat) :=
  discover source_config (neurons trio_start.1).

Definition trio_mutated : TensionSpider.t * Rng :=
  plasma_mutate_spider trio_classified (spider trio_start.1) trio_start.2.



(** *** Notions of the further properties *)

(** A coordinate in [0, 1], both ends included. *)
Definition in_unit (q : Q) : Prop := (0 <= q)%Q ∧ (q <= 1)%Q.

(** A neuron inside the unit square. *)
Definition wrapped (n : Neuron.t) : Prop :=
  in_unit (Neuron.x n) ∧ in_unit (Neuron.y n).

(** A predator inside the unit square whose counters are not negative. *)
Definition predator_sound (p : Predator.t) : Prop :=
  in_unit (Predator.x p) ∧ in_unit (Predator.y p) ∧
  (0 <= Predator.neurons_eaten p)%Z ∧ (0 <= Predator.hunger_timer p)%Z.

(** Thresholds in the two bands [plasma_mutate_spider] draws from, ends
    included. *)
Definition in_bands (sp : TensionSpider.t) : Prop :=
  (1 # 10 <= TensionSpider.solid_thresh sp)%Q ∧
  (TensionSpider.solid_thresh sp <= 2 # 5)%Q ∧
  (3 # 5 <= TensionSpider.plasma_thresh sp)%Q ∧
  (TensionSpider.plasma_thresh sp <= 9 # 10)%Q.

(** Clusters that cover the indices below [len], each index once. *)
Definition partitions (len : nat) (clusters : list (gset nat)) : Prop :=
  (∀ j, j < len → ∃ k c, clusters !! k = Some c ∧ j ∈ c) ∧
  (∀ k1 k2 c1 c2 j,
     clusters !! k1 = Some c1 → clusters !! k2 = Some c2 →
     j ∈ c1 → j ∈ c2 → k1 = k2) ∧
  (∀ c j, c ∈ clusters → j ∈ c → j < len).

(** A cluster gathered around one of its members, the seed. *)
Definition star_around (ns : list Neuron.t) (radius : Q) (c : gset nat) : Prop :=
  ∃ i n, ns !! i = Some n ∧ i ∈ c ∧
    ∀ j, j ∈ c →
      j = i ∨ ∃ m, ns !! j = Some m ∧ Neuron.state n = Neuron.state m ∧
                   Neuron.distance_lt n (Neuron.x m) (Neuron.y m) radius = true.

(** The invariant of the outer loop: [visited] is the union of the
    clusters found, which are disjoint, made of indices of the
    population, and each gathered around its seed. *)
Definition seeds_invariant (ns : list Neuron.t) (radius : Q)
    (visited : gset nat) (clusters : list (gset nat)) : Prop :=
  (∀ j, j ∈ visited ↔ ∃ k c, clusters !! k = Some c ∧ j ∈ c) ∧
  (∀ k1 k2 c1 c2 j,
     clusters !! k1 = Some c1 → clusters !! k2 = Some c2 →
     j ∈ c1 → j ∈ c2 → k1 = k2) ∧
  (∀ c j, c ∈ clusters → j ∈ c → j < length ns) ∧
  (∀ c, c ∈ clusters → star_around ns radius c).

(** The world after step 100 on [still_tape], the step in which the
    first predator enters; a world of one neuron; the population the
    classification pass of the first step leaves under
    [careless_config]. *)
Definition hunted_world : World * Rng :=
  Eval vm_compute in
  match run series_math source_config 101 still_tape return World * Rng with
  | inr r => r
  | inl _ => start_world
  end.

Definition lone_world : World :=
  mkWorld [Neuron.mk (1 # 2) (1 # 2) 2 LIQUID 2] None 100 TensionSpider.default.

Definition careless_classified : list Neuron.t :=
  match classified careless_config 0 (init_world careless_config zero_tape).1 with
  | inr ns => ns
  | inl _ => []
  end.

(* ------------------------------------------------------------------ *)
(** ** Facts about the float operations *)

Lemma ltb_lt (a b : Q) : (a <.? b) = true ↔ (a < b)%Q.
Proof.
  unfold Float.ltb. rewrite negb_true_iff. split.
  - intros H. apply Qnot_le_lt. intros Hle.
    apply Qle_bool_iff in Hle. congruence.
  - intros Hlt. destruct (Qle_bool b a) eqn:E; [|reflexivity].
    apply Qle_bool_iff in E. exfalso. exact (Qlt_not_le _ _ Hlt E).
Qed.

Lemma ltb_ge (a b : Q) : (a <.? b) = false ↔ (b <= a)%Q.
Proof.
  unfold Float.ltb. rewrite negb_false_iff. apply Qle_bool_iff.
Qed.

Global Instance ltb_proper : Proper (Qeq ==> Qeq ==> eq) Float.ltb.
Proof.
  intros a a' Ha b b' Hb.
  destruct (a' <.? b') eqn:E.
  - apply ltb_lt. rewrite Ha, Hb. by apply ltb_lt.
  - apply ltb_ge. rewrite Ha, Hb. by apply ltb_ge.
Qed.

Lemma add_correct (a b : Q) : (a ⊕ b == a + b)%Q.
Proof. apply Qred_correct. Qed.
Lemma sub_correct (a b : Q) : (a ⊖ b == a - b)%Q.
Proof. apply Qred_correct. Qed.
Lemma mul_correct (a b : Q) : (a ⊗ b == a * b)%Q.
Proof. apply Qred_correct. Qed.
Lemma div_correct (a b : Q) : (a ⊘ b == a / b)%Q.
Proof. apply Qred_correct. Qed.

Ltac unfloat :=
  repeat first [ rewrite add_correct | rewrite sub_correct
               | rewrite mul_correct | rewrite div_correct ].

Lemma sum_int_from (l : list Z) (a : Z) : foldl Z.add a l = (a + Zsum l)%Z.
Proof.
  revert a. induction l as [|v l IH]; intros a; simpl; [lia|].
  rewrite IH. lia.
Qed.

Lemma sum_int_Zsum (l : list Z) : TensionSpider.sum_int l = Zsum l.
Proof. unfold TensionSpider.sum_int. by rewrite sum_int_from. Qed.

Lemma sum_float_from (l : list Q) (a : Q) : (foldl Float.add a l == a + Qsum l)%Q.
Proof.
  revert a. induction l as [|v l IH]; intros a; simpl.
  - ring.
  - rewrite IH, add_correct. ring.
Qed.

Lemma sum_float_Qsum (l : list Q) : (TensionSpider.sum_float l == Qsum l)%Q.
Proof. unfold TensionSpider.sum_float. rewrite sum_float_from. ring. Qed.

Lemma Qsum_map_ext {A} (f g : A → Q) (l : list A) :
  (∀ a, (f a == g a)%Q) → (Qsum (map f l) == Qsum (map g l))%Q.
Proof.
  intros Hfg. induction l as [|a l IH]; simpl; [reflexivity|].
  by rewrite IH, Hfg.
Qed.

Lemma Zsum_perm (l l' : list Z) : l ≡ₚ l' → Zsum l = Zsum l'.
Proof. induction 1; simpl; lia. Qed.

Lemma Qsum_perm (l l' : list Q) : l ≡ₚ l' → (Qsum l == Qsum l')%Q.
Proof.
  induction 1 as [|a l l' _ IH|a b l|l l' l'' _ IH1 _ IH2]; simpl.
  - reflexivity.
  - by rewrite IH.
  - ring.
  - by rewrite IH1.
Qed.

(** The float expression of the program computes the population variance. *)
Lemma variance_correct (values : list Z) :
  (TensionSpider.variance values == population_variance values)%Q.
Proof.
  unfold TensionSpider.variance, population_variance, Float.of_int.
  rewrite div_correct, sum_float_Qsum, sum_int_Zsum.
  apply Qdiv_comp; [|reflexivity].
  apply Qsum_map_ext. intros v. unfloat. reflexivity.
Qed.

Lemma population_variance_perm (l l' : list Z) :
  l ≡ₚ l' → (population_variance l == population_variance l')%Q.
Proof.
  intros Hp. unfold population_variance.
  rewrite (Zsum_perm _ _ Hp), (Permutation_length Hp).
  apply Qdiv_comp; [|reflexivity].
  apply Qsum_perm. by apply Permutation_map.
Qed.

(* ------------------------------------------------------------------ *)
(** ** The classifier *)

Lemma apply_phase_nil (sp : TensionSpider.t) (n : Neuron.t) :
  Neuron.phase (TensionSpider.apply sp n []) = PLASMA.
Proof. reflexivity. Qed.

Lemma apply_phase_cons (sp : TensionSpider.t) (n m : Neuron.t) (ms : list Neuron.t) :
  Neuron.phase (TensionSpider.apply sp n (m :: ms)) =
    let v := TensionSpider.variance (map Neuron.state (m :: ms)) in
    if v <.? TensionSpider.solid_thresh sp then SOLID
    else if TensionSpider.plasma_thresh sp <.? v then PLASMA else LIQUID.
Proof.
  unfold TensionSpider.apply. cbv zeta.
  by repeat case_match.
Qed.

(** [apply] touches nothing but the phase. *)
Lemma apply_keeps (sp : TensionSpider.t) (n : Neuron.t) (ms : list Neuron.t) :
  let n' := TensionSpider.apply sp n ms in
  Neuron.x n' = Neuron.x n ∧ Neuron.y n' = Neuron.y n ∧
  Neuron.state n' = Neuron.state n ∧ Neuron.memory n' = Neuron.memory n.
Proof.
  unfold TensionSpider.apply. cbv zeta.
  by repeat case_match.
Qed.

(* ------------------------------------------------------------------ *)
(** ** Rounding errors *)

(** [Float.round] is off by at most a half. *)
Lemma round_half (a : Q) :
  (- (1 # 2) <= inject_Z (Float.round a) - a <= 1 # 2)%Q.
Proof.
  unfold Float.round. cbv zeta.
  pose proof (Qfloor_le a) as Hle. pose proof (Qlt_floor a) as Hlt.
  rewrite inject_Z_plus in Hlt. change (inject_Z 1) with 1%Q in Hlt.
  destruct (a ⊖ inject_Z (Qfloor a) <.? 1 # 2) eqn:E1.
  - apply ltb_lt in E1. rewrite sub_correct in E1. split; lra.
  - apply ltb_ge in E1. rewrite sub_correct in E1.
    destruct ((1 # 2) <.? a ⊖ inject_Z (Qfloor a)) eqn:E2.
    + rewrite inject_Z_plus. change (inject_Z 1) with 1%Q. split; lra.
    + apply ltb_ge in E2. rewrite sub_correct in E2.
      destruct (Z.even (Qfloor a)).
      * split; lra.
      * rewrite inject_Z_plus. change (inject_Z 1) with 1%Q. split; lra.
Qed.

Lemma two_power_pos (e : Z) : (0 < 2 ^ e)%Q.
Proof. apply Qpower_0_lt. reflexivity. Qed.

Lemma ilog2_le (q : Q) : ¬ (q == 0)%Q → (2 ^ Binary64.ilog2 q <= Qabs q)%Q.
Proof.
  intros Hq. unfold Binary64.ilog2. cbv zeta.
  destruct (Qle_bool _ _) eqn:E; [apply Qle_bool_iff in E; exact E|].
  clear E.
  destruct q as [n d]. unfold Qabs.
  assert (Hn : (0 < Z.abs n)%Z).
  { unfold Qeq in Hq. simpl in Hq. lia. }
  cbn [Qnum Qden].
  set (a := Z.log2 (Z.abs n)). set (b := Z.log2 (Z.pos d)).
  assert (Ha : (0 <= a)%Z) by apply Z.log2_nonneg.
  assert (Hb : (0 <= b)%Z) by apply Z.log2_nonneg.
  destruct (Z.log2_spec (Z.abs n) Hn) as [Hlo _]. fold a in Hlo.
  destruct (Z.log2_spec (Z.pos d) ltac:(lia)) as [_ Hhi]. fold b in Hhi.
  replace (a - b - 1)%Z with (a - (b + 1))%Z by lia.
  rewrite Qpower_minus by discriminate.
  change 2%Q with (inject_Z 2).
  rewrite <- !Zpower_Qpower by lia.
  apply Qle_shift_div_r.
  { change 0%Q with (inject_Z 0). rewrite <- Zlt_Qlt. apply Z.pow_pos_nonneg; lia. }
  unfold Qle, Qmult, inject_Z. cbn [Qnum Qden].
  rewrite Z.mul_1_r.
  assert (0 < 2 ^ a)%Z by (apply Z.pow_pos_nonneg; lia).
  assert (0 < 2 ^ (b + 1))%Z by (apply Z.pow_pos_nonneg; lia).
  replace (Z.succ b) with (b + 1)%Z in Hhi by lia.
  nia.
Qed.

(** Rounding to the nearest double: the relative error is at most 2^-53
    and, below the normal range, the absolute error at most 2^-1075. *)
Lemma binary64_round_error (q : Q) :
  (Qabs (Binary64.round q - q) <= (1 # 2 ^ 53) * Qabs q + 2 ^ (-1075))%Q.
Proof.
  unfold Binary64.round.
  destruct (Qeq_bool q 0) eqn:E.
  - apply Qeq_bool_iff in E. rewrite E. vm_compute. discriminate.
  - assert (Hq : ¬ (q == 0)%Q).
    { intros H. apply Qeq_bool_iff in H. congruence. }
    cbv zeta. rewrite Qred_correct.
    set (p := Z.max (Binary64.ilog2 q - 52) (-1074)).
    pose proof (two_power_pos p) as Hp.
    pose proof (round_half (q / 2 ^ p)) as Hr.
    set (R := inject_Z (Float.round (q / 2 ^ p))) in *.
    assert (Herr : (Qabs (R * 2 ^ p - q) <= (1 # 2) * 2 ^ p)%Q).
    { assert (Hd : (R * 2 ^ p - q == (R - q / 2 ^ p) * 2 ^ p)%Q).
      { field. lra. }
      rewrite Hd, Qabs_Qmult, (Qabs_pos (2 ^ p)) by lra.
      apply Qmult_le_compat_r; [|lra].
      apply Qabs_Qle_condition. split; lra. }
    eapply Qle_trans; [exact Herr|].
    pose proof (Qabs_nonneg q) as Hq0.
    assert (Heta : (0 < 2 ^ (-1075))%Q) by apply two_power_pos.
    destruct (Z.max_spec (Binary64.ilog2 q - 52) (-1074)) as [[_ Hm]|[_ Hm]];
      fold p in Hm; rewrite Hm.
    + assert (H1 : ((1 # 2) * 2 ^ (-1074) == 2 ^ (-1075))%Q) by reflexivity.
      rewrite H1.
      assert (0 <= (1 # 2 ^ 53) * Qabs q)%Q by (apply Qmult_le_0_compat; [discriminate|lra]).
      lra.
    + pose proof (ilog2_le q Hq) as Hl.
      replace (Binary64.ilog2 q - 52)%Z with (Binary64.ilog2 q + (-52))%Z by lia.
      rewrite Qpower_plus by discriminate.
      assert (H2 : ((1 # 2) * (2 ^ Binary64.ilog2 q * 2 ^ (-52))
                    == (1 # 2 ^ 53) * 2 ^ Binary64.ilog2 q)%Q).
      { assert (Hc : (2 ^ (-52) == 1 # 2 ^ 52)%Q) by reflexivity.
        rewrite Hc.
        assert (Hc2 : ((1 # 2) * (1 # 2 ^ 52) == 1 # 2 ^ 53)%Q) by reflexivity.
        rewrite <- Hc2. ring. }
      rewrite H2.
      assert ((1 # 2 ^ 53) * 2 ^ Binary64.ilog2 q <= (1 # 2 ^ 53) * Qabs q)%Q.
      { rewrite !(Qmult_comm (1 # 2 ^ 53)). apply Qmult_le_compat_r; [exact Hl|discriminate]. }
      lra.
Qed.

Lemma within_abs c a b : within c a b ↔ (Qabs (a - b) <= c)%Q.
Proof. unfold within. symmetry. apply Qabs_Qle_condition. Qed.

(** An operation off by at most the relative error [u] and the absolute
    error [eta] is off by at most [G * (u + eta)] on a value of
    magnitude at most [G], for [G] at least 1. *)
Lemma rnd_within (rnd : Q → Q) (u eta : Q) :
  (0 <= u)%Q → (0 <= eta)%Q →
  (∀ q, (Qabs (rnd q - q) <= u * Qabs q + eta)%Q) →
  ∀ q G, (Qabs q <= G)%Q → (1 <= G)%Q → within (G * (u + eta)) (rnd q) q.
Proof.
  intros Hu Heta Hrnd q G Hq HG. apply within_abs.
  eapply Qle_trans; [apply Hrnd|].
  assert (u * Qabs q <= u * G)%Q.
  { rewrite !(Qmult_comm u). by apply Qmult_le_compat_r. }
  nra.
Qed.

Lemma mul_bound (a b A B : Q) :
  (- A <= a <= A)%Q → (- B <= b <= B)%Q → (- (A * B) <= a * b <= A * B)%Q.
Proof. intros Ha Hb. split; nra. Qed.

Lemma abs_le (q lo hi G : Q) :
  (lo <= q <= hi)%Q → (- G <= lo)%Q → (hi <= G)%Q → (Qabs q <= G)%Q.
Proof. intros [H1 H2] H3 H4. apply Qabs_Qle_condition. split; lra. Qed.

(** Every operation being off by at most [G * t] on a value of magnitude
    at most [G]. *)
Section ErrorBound.

Variable rnd : Q → Q.
Variable t : Q.
Hypothesis Ht0 : (0 <= t)%Q.
Hypothesis rnd_close :
  ∀ q G, (Qabs q <= G)%Q → (1 <= G)%Q → within (G * t) (rnd q) q.

(** One squared deviation. *)
Lemma square_within (v : Z) (m mh : Q) :
  (1 <= v <= 3)%Z → (1 <= m <= 3)%Q → (t <= 1 # 100)%Q →
  within (3 * t) mh m →
  let d := (inject_Z v - m)%Q in
  let qh := Rounded.mul rnd (Rounded.sub rnd (Rounded.of_int rnd v) mh)
                            (Rounded.sub rnd (Rounded.of_int rnd v) mh) in
  within (54 * t) qh (d * d) ∧ (0 <= d * d <= 4)%Q.
Proof.
  intros Hv Hm Ht Hmh. cbv zeta.
  unfold Rounded.mul, Rounded.sub, Rounded.of_int.
  assert (Hvq : (1 <= inject_Z v <= 3)%Q).
  { split; [change 1%Q with (inject_Z 1)|change 3%Q with (inject_Z 3)];
      rewrite <- Zle_Qle; lia. }
  set (V := inject_Z v) in *.
  assert (H1 : within (3 * t) (rnd V) V).
  { apply rnd_close; [|lra]. eapply abs_le; [exact Hvq|lra|lra]. }
  set (vh := rnd V) in *.
  unfold within in *.
  assert (H2 : within (3 * t) (rnd (vh - mh)) (vh - mh)).
  { apply rnd_close; [|lra]. apply Qabs_Qle_condition. split; lra. }
  set (dh := rnd (vh - mh)) in *. unfold within in H2.
  assert (Hd : (- (9 * t) <= dh - (V - m) <= 9 * t)%Q) by lra.
  assert (Hdb : (-3 <= dh <= 3)%Q) by lra.
  assert (Hdd : (0 <= dh * dh <= 9)%Q) by nra.
  assert (H3 : within (9 * t) (rnd (dh * dh)) (dh * dh)).
  { apply rnd_close; [|lra]. apply Qabs_Qle_condition. split; lra. }
  unfold within in H3.
  set (d := (V - m)%Q) in *.
  assert (Hdr : (-2 <= d <= 2)%Q) by (unfold d; lra).
  assert (Hsq : (- (45 * t) <= dh * dh - d * d <= 45 * t)%Q).
  { assert (Hf : (dh * dh - d * d == (dh - d) * (dh + d))%Q) by ring.
    rewrite Hf.
    assert (H5 : (Qopp 5 <= dh + d <= 5)%Q) by lra.
    assert (H9 : (- (9 * t) <= dh - d <= 9 * t)%Q) by (unfold d; lra).
    pose proof (mul_bound _ _ _ _ H9 H5). lra. }
  split; [lra|nra].
Qed.


(** The rounded sum of squared deviations. *)
Lemma sum_within (m mh K : Q) (vs : list Z) :
  (1 <= m <= 3)%Q → (t <= 1 # 100)%Q → within (3 * t) mh m →
  (∀ v, v ∈ vs → (1 <= v <= 3)%Z) →
  let f := λ v : Z,
    Rounded.mul rnd (Rounded.sub rnd (Rounded.of_int rnd v) mh)
                    (Rounded.sub rnd (Rounded.of_int rnd v) mh) in
  let f0 := λ v : Z, ((inject_Z v - m) * (inject_Z v - m))%Q in
  let n := inject_Z (Z.of_nat (length vs)) in
  ∀ a a0 E,
    (0 <= E)%Q → within E a a0 → (0 <= a0)%Q →
    (a0 + 4 * n <= 4 * K)%Q →
    (E + n * ((4 * K + 55) * t) <= 1)%Q →
    within (E + n * ((4 * K + 55) * t))
           (foldl (Rounded.add rnd) a (map f vs)) (a0 + Qsum (map f0 vs))
    ∧ (0 <= Qsum (map f0 vs) <= 4 * n)%Q.
Proof.
  intros Hm Ht Hmh. cbv zeta.
  induction vs as [|v vs IH]; intros Hvs a a0 E HE Ha Ha0 HK Hone.
  - cbn [map foldl Qsum fold_right length]. change (inject_Z (Z.of_nat 0)) with 0%Q.
    unfold within in *. split; lra.
  - cbn [map foldl length]. cbn [length] in HK, Hone.
    assert (Hlen : (inject_Z (Z.of_nat (S (length vs)))
                    == inject_Z (Z.of_nat (length vs)) + 1)%Q).
    { rewrite Nat2Z.inj_succ, <- Z.add_1_r, inject_Z_plus. reflexivity. }
    assert (Hn0 : (0 <= inject_Z (Z.of_nat (length vs)))%Q).
    { change 0%Q with (inject_Z 0). rewrite <- Zle_Qle. lia. }
    set (n := inject_Z (Z.of_nat (length vs))) in *.
    rewrite Hlen in HK, Hone. unfold within at 1. rewrite Hlen.
    assert (HK0 : (0 <= K)%Q) by lra.
    destruct (square_within v m mh (Hvs v ltac:(left)) Hm Ht Hmh) as [Hq Hq0].
    cbv zeta in Hq, Hq0.
    set (qh := Rounded.mul rnd _ _) in *.
    set (q0 := ((inject_Z v - m) * (inject_Z v - m))%Q) in *.
    assert (HKt : (0 <= K * t)%Q) by (apply Qmult_le_0_compat; lra).
    assert (Hnt : (0 <= n * t)%Q) by (apply Qmult_le_0_compat; lra).
    assert (HnKt : (0 <= n * (K * t))%Q) by (apply Qmult_le_0_compat; lra).
    assert (Hstep : (54 * t <= (n + 1) * ((4 * K + 55) * t))%Q) by nra.
    assert (Hz : within ((4 * K + 1) * t) (Rounded.add rnd a qh) (a + qh)).
    { unfold Rounded.add. apply rnd_close; [|lra].
      unfold within in *. apply Qabs_Qle_condition. split; lra. }
    destruct (IH (λ w Hw, Hvs w ltac:(by right)) (Rounded.add rnd a qh) (a0 + q0)%Q
                 (E + (4 * K + 55) * t)%Q) as [IH1 IH2].
    + nra.
    + unfold within in *. nra.
    + lra.
    + lra.
    + nra.
    + cbn [Qsum fold_right]. fold (Qsum (map (λ v0 : Z,
        ((inject_Z v0 - m) * (inject_Z v0 - m))%Q) vs)).
      fold q0. unfold within in *. split; [|lra].
      split; nra.
Qed.


Lemma Zsum_bounds (l : list Z) :
  (∀ v, v ∈ l → (1 <= v <= 3)%Z) →
  (Z.of_nat (length l) <= Zsum l <= 3 * Z.of_nat (length l))%Z.
Proof.
  induction l as [|v l IH]; intros H; [simpl; lia|].
  cbn [Zsum fold_right length]. fold (Zsum l).
  specialize (IH (λ w Hw, H w ltac:(by right))).
  specialize (H v ltac:(left)). lia.
Qed.

(** The computed variance of states between 1 and 3 is close to their
    population variance. *)
Lemma variance_within (values : list Z) :
  values ≠ [] →
  (∀ v, v ∈ values → (1 <= v <= 3)%Z) →
  let k := inject_Z (Z.of_nat (length values)) in
  (k * (8 * k + 123) * t <= 1)%Q →
  within ((8 * k + 123) * t)
         (Rounded.variance rnd values) (population_variance values).
Proof.
  intros Hne Hvs. cbv zeta. intros Hsmall.
  assert (Hlen : (1 <= Z.of_nat (length values))%Z) by (destruct values; [done|simpl; lia]).
  pose proof (Zsum_bounds values Hvs) as Hs.
  unfold Rounded.variance, population_variance. cbv zeta.
  rewrite sum_int_Zsum.
  assert (Hk1 : (1 <= inject_Z (Z.of_nat (length values)))%Q).
  { change 1%Q with (inject_Z 1). by rewrite <- Zle_Qle. }
  assert (Hsk : (inject_Z (Z.of_nat (length values)) <= inject_Z (Zsum values)
                 <= 3 * inject_Z (Z.of_nat (length values)))%Q).
  { split; [rewrite <- Zle_Qle; lia|].
    change 3%Q with (inject_Z 3). rewrite <- inject_Z_mult, <- Zle_Qle. lia. }
  set (k := inject_Z (Z.of_nat (length values))) in *.
  set (s := inject_Z (Zsum values)) in *.
  assert (Hkt : (0 <= k * t)%Q) by (apply Qmult_le_0_compat; lra).
  assert (Hkkt : (0 <= k * (k * t))%Q) by (apply Qmult_le_0_compat; lra).
  assert (Hkt1 : (t <= k * t)%Q) by nra.
  assert (Hkkt1 : (k * t <= k * (k * t))%Q) by nra.
  assert (Ht100 : (t <= 1 # 100)%Q) by nra.
  (* the mean *)
  assert (Hm : (1 <= s / k <= 3)%Q).
  { split; [apply Qle_shift_div_l|apply Qle_shift_div_r]; lra. }
  set (m := (s / k)%Q) in *.
  assert (Hmh : within (3 * t) (Rounded.div_int rnd (Zsum values)
                                  (Z.of_nat (length values))) m).
  { unfold Rounded.div_int. fold s k m. apply rnd_close; [|lra].
    apply Qabs_Qle_condition. split; lra. }
  set (mh := Rounded.div_int rnd _ _) in *.
  (* the sum *)
  destruct (sum_within m mh k values Hm Ht100 Hmh Hvs 0 0 0) as [HS HS0].
  { lra. } { unfold within. lra. } { lra. } { fold k. lra. } { fold k. nra. }
  cbv zeta in HS, HS0. fold k in HS, HS0.
  unfold Rounded.sum_float.
  set (Sh := foldl (Rounded.add rnd) 0%Q _) in *.
  set (S := Qsum _) in *.
  (* the count *)
  assert (Hkh : within (k * t) (Rounded.of_int rnd (Z.of_nat (length values))) k).
  { unfold Rounded.of_int. fold k. apply rnd_close; [|lra].
    apply Qabs_Qle_condition. split; lra. }
  set (kh := Rounded.of_int rnd _) in *.
  unfold within in *.
  assert (Hkh2 : (k * (1 # 2) <= kh)%Q) by nra.
  assert (Hkh0 : (0 < kh)%Q) by lra.
  (* the quotient *)
  set (x := (Sh / kh)%Q). set (y := (S / k)%Q).
  assert (Hx : (x * kh == Sh)%Q) by (unfold x; field; lra).
  assert (Hy : (y * k == S)%Q) by (unfold y; field; lra).
  assert (Hy4 : (0 <= y <= 4)%Q).
  { unfold y. split; [apply Qle_shift_div_l|apply Qle_shift_div_r]; lra. }
  assert (Hprod : (- (k * ((4 * k + 59) * t)) <= (x - y) * kh
                   <= k * ((4 * k + 59) * t))%Q).
  { assert (He : ((x - y) * kh == (Sh - S) + y * (k - kh))%Q).
    { rewrite <- Hx, <- Hy. ring. }
    rewrite He.
    assert (Hkk : (- (k * t) <= k - kh <= k * t)%Q) by lra.
    assert (Hy4' : (Qopp 4 <= y <= 4)%Q) by lra.
    pose proof (mul_bound _ _ _ _ Hy4' Hkk). lra. }
  assert (Hxy : (- ((8 * k + 118) * t) <= x - y <= (8 * k + 118) * t)%Q).
  { assert (Hc : ((8 * k + 118) * t * (k * (1 # 2)) == k * ((4 * k + 59) * t))%Q) by ring.
    assert (Hc0 : (0 <= (8 * k + 118) * t)%Q) by nra.
    split.
    - apply Qnot_lt_le. intros Hlt.
      assert ((x - y) * kh < - ((8 * k + 118) * t) * (k * (1 # 2)))%Q; [nra|lra].
    - apply Qnot_lt_le. intros Hlt.
      assert ((8 * k + 118) * t * (k * (1 # 2)) < (x - y) * kh)%Q; [nra|lra]. }
  (* the last rounding *)
  assert (Hc1 : ((8 * k + 118) * t <= 1)%Q) by nra.
  assert (Hr : (- (5 * t) <= Rounded.div rnd Sh kh - x <= 5 * t)%Q).
  { unfold Rounded.div. fold x. apply rnd_close; [|lra].
    apply Qabs_Qle_condition. split; lra. }
  fold y. split; nra.
Qed.

End ErrorBound.

(** In doubles, for up to a thousand states between 1 and 3. *)
Lemma binary64_variance_error (values : list Z) :
  values ≠ [] →
  (∀ v, v ∈ values → (1 <= v <= 3)%Z) →
  length values ≤ 1000 →
  within ((8 * inject_Z (Z.of_nat (length values)) + 123) * (1 # 2 ^ 52))
         (Rounded.variance Binary64.round values) (population_variance values).
Proof.
  intros Hne Hvs Hlen.
  assert (Hk1 : (1 <= inject_Z (Z.of_nat (length values)))%Q).
  { change 1%Q with (inject_Z 1). rewrite <- Zle_Qle.
    destruct values; [done|simpl; lia]. }
  assert (Hk2 : (inject_Z (Z.of_nat (length values)) <= 1000)%Q).
  { change 1000%Q with (inject_Z 1000). rewrite <- Zle_Qle. lia. }
  set (k := inject_Z (Z.of_nat (length values))) in *.
  assert (Ht : ((1 # 2 ^ 53) + 2 ^ (-1075) <= 1 # 2 ^ 52)%Q) by (vm_compute; discriminate).
  assert (Ht0 : (0 <= (1 # 2 ^ 53) + 2 ^ (-1075))%Q) by (vm_compute; discriminate).
  assert (Hc : (1000 * (8 * 1000 + 123) * (1 # 2 ^ 52) <= 1)%Q) by (vm_compute; discriminate).
  set (t := ((1 # 2 ^ 53) + 2 ^ (-1075))%Q) in *.
  pose proof (variance_within Binary64.round t Ht0
                (rnd_within Binary64.round (1 # 2 ^ 53) (2 ^ (-1075))
                   ltac:(discriminate) ltac:(discriminate) binary64_round_error)
                values Hne Hvs) as H.
  cbv zeta in H. fold k in H.
  assert (Hkt : (k * (8 * k + 123) * t <= 1)%Q) by nra.
  specialize (H Hkt). unfold within in *. split; nra.
Qed.












(* ------------------------------------------------------------------ *)
(** ** In-place loops over the population *)

Lemma bind_eq {A B} (m : Rand A) (k : A → Rand B) (g : Rng) :
  bind m k g = k (m g).1 (m g).2.
Proof. unfold bind. by destruct (m g). Qed.

Lemma for_each_cons i idxs body store g :
  for_each (i :: idxs) body store g
  = for_each idxs body (body i store g).1 (body i store g).2.
Proof. simpl. by rewrite bind_eq. Qed.

Lemma for_each_app idxs1 idxs2 body store g :
  for_each (idxs1 ++ idxs2) body store g
  = for_each idxs2 body (for_each idxs1 body store g).1
                        (for_each idxs1 body store g).2.
Proof.
  revert store g. induction idxs1 as [|i idxs1 IH]; intros store g.
  - reflexivity.
  - rewrite <- app_comm_cons, !for_each_cons. apply IH.
Qed.

Section ForEach.

Variable body : nat → list Neuron.t → Rand (list Neuron.t).

(** The body for index [i] writes to neuron [i] only. *)
Hypothesis body_local : ∀ i store g j,
  j ≠ i → (body i store g).1 !! j = store !! j.
Hypothesis body_length : ∀ i store g,
  length (body i store g).1 = length store.

Lemma for_each_length idxs store g :
  length (for_each idxs body store g).1 = length store.
Proof.
  revert store g. induction idxs as [|i idxs IH]; intros store g.
  - reflexivity.
  - rewrite for_each_cons, IH. apply body_length.
Qed.

Lemma for_each_untouched idxs store g j :
  j ∉ idxs → (for_each idxs body store g).1 !! j = store !! j.
Proof.
  revert store g. induction idxs as [|i idxs IH]; intros store g Hj.
  - reflexivity.
  - apply not_elem_of_cons in Hj as [Hne Hj].
    rewrite for_each_cons, IH by done. by apply body_local.
Qed.

(** A property of stores that every body keeps is kept by the loop. *)
Lemma for_each_invariant (P : list Neuron.t → Prop) idxs store g :
  (∀ i s g0, P s → P (body i s g0).1) →
  P store → P (for_each idxs body store g).1.
Proof.
  intros Hstep. revert store g.
  induction idxs as [|i idxs IH]; intros store g HP.
  - exact HP.
  - rewrite for_each_cons. apply IH. by apply Hstep.
Qed.

(** The loop over the whole population, seen from index [i]: the
    store the body for [i] reads holds the final neurons below [i] and
    the initial neurons from [i] on, and what it writes at [i] is
    final. *)
Lemma for_each_seq_at (len i : nat) store g :
  i < len →
  let before := for_each (seq 0 i) body store g in
  let final := for_each (seq 0 len) body store g in
  (∀ j, j < i → before.1 !! j = final.1 !! j) ∧
  (∀ j, i ≤ j → before.1 !! j = store !! j) ∧
  final.1 !! i = (body i before.1 before.2).1 !! i.
Proof.
  intros Hi. cbv zeta.
  replace len with (i + (1 + (len - i - 1))) by lia.
  rewrite (seq_app i), for_each_app.
  rewrite (seq_app 1), for_each_app. simpl seq.
  set (before := for_each (seq 0 i) body store g).
  rewrite (for_each_cons _ []). simpl for_each at 2 3. unfold ret; simpl.
  repeat split.
  - intros j Hj. rewrite for_each_untouched.
    + symmetry. apply body_local. lia.
    + rewrite elem_of_seq. lia.
  - intros j Hj. apply for_each_untouched. rewrite elem_of_seq. lia.
  - apply for_each_untouched. rewrite elem_of_seq. lia.
Qed.

End ForEach.

(* ------------------------------------------------------------------ *)
(** ** The random draws *)

Lemma random_range (g : Rng) :
  (0 <= (random.random g).1)%Q ∧ ((random.random g).1 < 1)%Q.
Proof.
  unfold random.random. rewrite bind_eq.
  unfold ret, random.next_raw. cbn [fst snd].
  set (r := tape g (cursor g)).
  assert (Hr : (0 <= Z.of_N (r mod 2 ^ 53) < Z.pos (2 ^ 53))%Z).
  { split; [apply N2Z.is_nonneg|].
    change (Z.pos (2 ^ 53)) with (Z.of_N (2 ^ 53)).
    apply N2Z.inj_lt. by apply N.mod_lt. }
  split; rewrite Qred_correct; unfold Qle, Qlt; cbn [Qnum Qden]; lia.
Qed.

Lemma uniform_eq (a b : Q) (g : Rng) :
  ((random.uniform a b g).1 == a + (b - a) * (random.random g).1)%Q ∧
  (random.uniform a b g).2 = (random.random g).2.
Proof.
  unfold random.uniform. rewrite bind_eq. unfold ret; simpl.
  split; [|done]. unfloat. reflexivity.
Qed.

Lemma randint_1_3 (g : Rng) : (1 <= (random.randint 1 3 g).1 <= 3)%Z.
Proof.
  unfold random.randint, random.randbelow. rewrite !bind_eq.
  unfold ret, random.next_raw. cbn [fst snd].
  change (Z.to_N (3 - 1 + 1)) with 3%N.
  pose proof (N.mod_lt (tape g (cursor g)) 3 ltac:(done)) as H.
  generalize dependent (tape g (cursor g) `mod` 3)%N. intros k Hk. lia.
Qed.

(* ------------------------------------------------------------------ *)
(** ** The spider mutation *)

Lemma mutate_without_plasma (ns : list Neuron.t) (sp : TensionSpider.t) (g : Rng) :
  (∀ n, n ∈ ns → Neuron.phase n ≠ PLASMA) →
  plasma_mutate_spider ns sp g = (sp, g).
Proof.
  intros Hno. unfold plasma_mutate_spider.
  destruct (filter _ ns) as [|n l] eqn:E; [done|].
  assert (Hin : n ∈ filter (λ n, Neuron.phase n = PLASMA) ns)
    by (rewrite E; left).
  apply list_elem_of_filter in Hin as [Hp Hin]. by destruct (Hno n Hin).
Qed.

Lemma mutate_with_plasma (ns : list Neuron.t) (sp : TensionSpider.t) (g : Rng) :
  (∃ n, n ∈ ns ∧ Neuron.phase n = PLASMA) →
  plasma_mutate_spider ns sp g
  = (TensionSpider.mk (random.uniform (1 # 10) (2 # 5) g).1
       (random.uniform (3 # 5) (9 # 10) (random.uniform (1 # 10) (2 # 5) g).2).1,
     (random.uniform (3 # 5) (9 # 10) (random.uniform (1 # 10) (2 # 5) g).2).2).
Proof.
  intros (n & Hin & Hp). unfold plasma_mutate_spider.
  destruct (filter _ ns) as [|n' l] eqn:E.
  - assert (Hf : n ∈ filter (λ n, Neuron.phase n = PLASMA) ns)
      by (apply list_elem_of_filter; done).
    rewrite E in Hf. by apply elem_of_nil in Hf.
  - by rewrite !bind_eq.
Qed.

Lemma plasma_dec (ns : list Neuron.t) :
  (∃ n, n ∈ ns ∧ Neuron.phase n = PLASMA) ∨ (∀ n, n ∈ ns → Neuron.phase n ≠ PLASMA).
Proof.
  induction ns as [|m ns [(n & Hin & Hp)|Hno]].
  - right. intros n Hn. by apply elem_of_nil in Hn.
  - left. exists n. split; [by right|done].
  - destruct (decide (Neuron.phase m = PLASMA)) as [Hm|Hm].
    + left. exists m. split; [by left|done].
    + right. intros n Hn. apply elem_of_cons in Hn as [->|Hn]; auto.
Qed.

(** Whatever the population, the spider that comes out of the mutation
    is the old one or one with thresholds in the two bands. *)
Lemma mutate_cases (ns : list Neuron.t) (sp : TensionSpider.t) (g : Rng) :
  (plasma_mutate_spider ns sp g).1 = sp ∨
  ((1 # 10 <= TensionSpider.solid_thresh (plasma_mutate_spider ns sp g).1)%Q ∧
   (TensionSpider.solid_thresh (plasma_mutate_spider ns sp g).1 < 2 # 5)%Q ∧
   (3 # 5 <= TensionSpider.plasma_thresh (plasma_mutate_spider ns sp g).1)%Q ∧
   (TensionSpider.plasma_thresh (plasma_mutate_spider ns sp g).1 < 9 # 10)%Q).
Proof.
  destruct (plasma_dec ns) as [Hp|Hno].
  - right. rewrite (mutate_with_plasma _ _ _ Hp).
    cbn [fst TensionSpider.solid_thresh TensionSpider.plasma_thresh].
    set (g1 := (random.uniform (1 # 10) (2 # 5) g).2).
    destruct (uniform_eq (1 # 10) (2 # 5) g) as [E1 _].
    destruct (uniform_eq (3 # 5) (9 # 10) g1) as [E2 _].
    destruct (random_range g) as [? ?], (random_range g1) as [? ?].
    repeat split; lra.
  - left. by rewrite (mutate_without_plasma _ _ _ Hno).
Qed.

(* ------------------------------------------------------------------ *)
(** ** The structure of a step *)

(** A step that gets past the poke runs the passes one after the other,
    each on the population and the oracle the previous one left. *)
Lemma update_passes M cfg frame w g ns0 :
  poke cfg frame (neurons w) = inr ns0 →
  update M cfg frame w g =
    inr (let s := spawn_predator cfg (predator w) (predator_timer w) g in
         let nbh := discover cfg ns0 in
         let ns1 := phase_updates (spider w) nbh ns0 in
         let m := plasma_mutate_spider ns1 (spider w) s.2 in
         let st := state_updates nbh ns1 m.2 in
         let sp := spatial_updates cfg nbh st.1 st.2 in
         let h := predator_interaction M cfg s.1.1 sp.1 sp.2 in
         (mkWorld h.1.1 h.1.2 s.1.2 m.1, h.2)).
Proof.
  intros Hpoke. unfold update. rewrite Hpoke. f_equal.
  rewrite bind_eq.
  destruct (spawn_predator cfg (predator w) (predator_timer w) g)
    as [[pred timer] g1]. cbn [fst snd].
  rewrite !bind_eq. cbv zeta.
  destruct (predator_interaction M cfg pred _ _) as [[ns4 pred'] g4].
  reflexivity.
Qed.

Lemma update_fails M cfg frame w g e :
  update M cfg frame w g = inl e ↔ poke cfg frame (neurons w) = inl e.
Proof.
  unfold update. destruct (poke cfg frame (neurons w)); split; congruence.
Qed.

Lemma py_index_lt {A} (l : list A) (i : Z) (k : nat) :
  py_index l i = Some k → k < length l.
Proof.
  unfold py_index. intros H.
  repeat case_match; simplify_eq; lia.
Qed.

Lemma py_index_None {A} (l : list A) (i : Z) :
  py_index l i = None ↔
  ¬ (- Z.of_nat (length l) <= i < Z.of_nat (length l))%Z.
Proof.
  unfold py_index. repeat case_match; split; intros; try done; lia.
Qed.

Lemma poke_cases cfg frame ns :
  (frame ≠ POKE_STEP cfg ∧ poke cfg frame ns = inr ns) ∨
  (frame = POKE_STEP cfg ∧ py_index ns (POKE_NEURON cfg) = None
     ∧ poke cfg frame ns = inl IndexError) ∨
  (frame = POKE_STEP cfg ∧ ∃ i, py_index ns (POKE_NEURON cfg) = Some i ∧
     poke cfg frame ns =
       inr (alter (λ n, Neuron.set_phase (Neuron.set_state n (POKE_VALUE cfg)) LIQUID)
                  i ns)).
Proof.
  unfold poke. destruct (Z.eqb_spec frame (POKE_STEP cfg)) as [->|Hne].
  - right. destruct (py_index ns (POKE_NEURON cfg)) as [i|] eqn:E.
    + right. split; [done|]. by exists i.
    + left. done.
  - left. done.
Qed.

(** The poke keeps the size of the population and every memory. *)
Lemma poke_keeps cfg frame ns ns0 :
  poke cfg frame ns = inr ns0 →
  length ns0 = length ns ∧
  ∀ j, Neuron.memory <$> ns0 !! j = Neuron.memory <$> ns !! j.
Proof.
  intros H.
  destruct (poke_cases cfg frame ns) as [[_ E]|[(_ & _ & E)|(_ & i & _ & E)]];
    rewrite E in H; simplify_eq.
  - done.
  - split; [apply length_alter|].
    intros j. destruct (decide (j = i)) as [->|Hne].
    + rewrite list_lookup_alter_eq. by destruct (ns !! i).
    + by rewrite list_lookup_alter_ne.
Qed.

(* ------------------------------------------------------------------ *)
(** ** The phase pass *)

Lemma deref_states (s1 s2 : list Neuron.t) (refs : list nat) :
  (∀ j, Neuron.state <$> s1 !! j = Neuron.state <$> s2 !! j) →
  map Neuron.state (deref s1 refs) = map Neuron.state (deref s2 refs).
Proof.
  intros H. unfold deref.
  induction refs as [|r refs IH]; [done|]. simpl.
  specialize (H r).
  destruct (s1 !! r), (s2 !! r); simplify_eq/=; [by rewrite H, IH | exact IH].
Qed.

Lemma deref_nil (s : list Neuron.t) (refs : list nat) :
  deref s refs = [] ↔ ∀ r, r ∈ refs → length s ≤ r.
Proof.
  unfold deref. induction refs as [|r refs IH]; simpl.
  - split; [|done]. intros _ r Hr. by apply elem_of_nil in Hr.
  - destruct (s !! r) eqn:E; simpl.
    + split; [done|]. intros H.
      apply lookup_lt_Some in E.
      assert (Hr : r ∈ r :: refs) by left. specialize (H r Hr). lia.
    + apply lookup_ge_None in E. rewrite IH. split.
      * intros H r' Hr'. apply elem_of_cons in Hr' as [->|Hr']; auto.
      * intros H r' Hr'. apply H. by right.
Qed.

Lemma apply_states sp n nb1 nb2 :
  map Neuron.state nb1 = map Neuron.state nb2 →
  TensionSpider.apply sp n nb1 = TensionSpider.apply sp n nb2.
Proof.
  intros H. unfold TensionSpider.apply.
  destruct nb1, nb2; try done. cbv zeta. by rewrite H.
Qed.

Lemma apply_liquid sp n nb :
  Neuron.phase (TensionSpider.apply sp n nb) = LIQUID → nb ≠ [].
Proof. by destruct nb. Qed.

Lemma foldl_for_each (f : nat → list Neuron.t → list Neuron.t) idxs store g :
  foldl (λ s i, f i s) store idxs
  = (for_each idxs (λ i s, ret (f i s)) store g).1.
Proof.
  revert store. induction idxs as [|i idxs IH]; intros store; [done|].
  rewrite for_each_cons. simpl. apply IH.
Qed.

Lemma phase_update_local sp nbh i store j :
  j ≠ i → phase_update sp nbh i store !! j = store !! j.
Proof.
  intros Hne. unfold phase_update. destruct (store !! i); [|done].
  by apply list_lookup_insert_ne.
Qed.

Lemma phase_update_length sp nbh i store :
  length (phase_update sp nbh i store) = length store.
Proof.
  unfold phase_update. destruct (store !! i); [|done]. apply length_insert.
Qed.

Lemma phase_update_states sp nbh i store j :
  Neuron.state <$> phase_update sp nbh i store !! j = Neuron.state <$> store !! j.
Proof.
  destruct (decide (j = i)) as [->|Hne]; [|by rewrite phase_update_local].
  unfold phase_update. destruct (store !! i) as [n|] eqn:E; [|by rewrite ?E].
  rewrite list_lookup_insert_eq by (by eapply lookup_lt_Some).
  rewrite ?E. simpl. f_equal. apply apply_keeps.
Qed.

Lemma phase_updates_length sp nbh ns :
  length (phase_updates sp nbh ns) = length ns.
Proof.
  unfold phase_updates. rewrite (foldl_for_each _ _ _ (mkRng (λ _, 0%N) 0)).
  apply for_each_length. intros. apply phase_update_length.
Qed.

(** After the phase pass every neuron is the one [apply] returns for it
    and for its neighbours as they were when the pass began. *)
Lemma phase_updates_lookup sp nbh ns i n :
  ns !! i = Some n →
  phase_updates sp nbh ns !! i
  = Some (TensionSpider.apply sp n (deref ns (neighborhood nbh i))).
Proof.
  intros Hi. unfold phase_updates.
  set (g := mkRng (λ _, 0%N) 0).
  set (body := λ i s, ret (phase_update sp nbh i s) : Rand (list Neuron.t)).
  rewrite (foldl_for_each _ _ _ g). fold body.
  assert (Hloc : ∀ i store g j, j ≠ i → (body i store g).1 !! j = store !! j)
    by (intros; by apply phase_update_local).
  assert (Hlen : ∀ i store g, length (body i store g).1 = length store)
    by (intros; apply phase_update_length).
  destruct (for_each_seq_at body Hloc (length ns) i ns g) as (_ & Hge & Hat).
  { by eapply lookup_lt_Some. }
  rewrite Hat. set (before := for_each (seq 0 i) body ns g) in *.
  assert (Hst : ∀ j, Neuron.state <$> before.1 !! j = Neuron.state <$> ns !! j).
  { apply (for_each_invariant body
             (λ s, ∀ j, Neuron.state <$> s !! j = Neuron.state <$> ns !! j));
      [|done].
    intros k s g0 Hs j. unfold body, ret; simpl.
    by rewrite phase_update_states. }
  unfold body, ret; simpl. unfold phase_update.
  rewrite (Hge i) by lia. rewrite Hi.
  rewrite list_lookup_insert_eq.
  - f_equal. apply apply_states. by apply deref_states.
  - unfold before. rewrite (for_each_length body Hlen). by eapply lookup_lt_Some.
Qed.

(* ------------------------------------------------------------------ *)
(** ** The state pass *)

Lemma state_update_local nbh i store g j :
  j ≠ i → (state_update nbh i store g).1 !! j = store !! j.
Proof.
  intros Hne. unfold state_update. destruct (store !! i); [|done].
  rewrite bind_eq. unfold ret; cbn [fst]. by apply list_lookup_insert_ne.
Qed.

Lemma state_update_length nbh i store g :
  length (state_update nbh i store g).1 = length store.
Proof.
  unfold state_update. destruct (store !! i); [|done].
  rewrite bind_eq. unfold ret; cbn [fst]. apply length_insert.
Qed.

Lemma state_update_at nbh i store g n :
  store !! i = Some n →
  (state_update nbh i store g).1 !! i
  = Some (let s := (next_state n (deref store (neighborhood nbh i)) g).1 in
          Neuron.set_memory (Neuron.set_state n s) s).
Proof.
  intros Hi. unfold state_update. rewrite Hi, bind_eq. unfold ret; cbn [fst].
  apply list_lookup_insert_eq. by eapply lookup_lt_Some.
Qed.

Lemma next_state_range n nb g :
  (1 <= Neuron.memory n <= 3)%Z →
  (Neuron.phase n = LIQUID → nb ≠ []) →
  (1 <= (next_state n nb g).1 <= 3)%Z.
Proof.
  intros Hm Hl. unfold next_state. destruct (Neuron.phase n).
  - exact Hm.
  - destruct nb as [|m ms]; [by destruct Hl|].
    rewrite bind_eq. unfold ret; cbn [fst]. lia.
  - apply randint_1_3.
Qed.

Lemma state_updates_length nbh ns g :
  length (state_updates nbh ns g).1 = length ns.
Proof. apply for_each_length. intros. apply state_update_length. Qed.

(** The state pass leaves every neuron settled, provided every memory is
    in range and no neuron without neighbours is LIQUID when it begins. *)
Lemma state_updates_settled nbh ns g :
  (∀ j n, ns !! j = Some n →
     (1 <= Neuron.memory n <= 3)%Z ∧
     (Neuron.phase n = LIQUID → deref ns (neighborhood nbh j) ≠ [])) →
  ∀ n, n ∈ (state_updates nbh ns g).1 → settled n.
Proof.
  intros Hpre n' Hin.
  apply list_elem_of_lookup in Hin as [i Hi].
  assert (Hlt : i < length ns).
  { rewrite <- (state_updates_length nbh ns g). by eapply lookup_lt_Some. }
  destruct (for_each_seq_at (state_update nbh) (state_update_local nbh)
              (length ns) i ns g Hlt) as (_ & Hge & Hat).
  fold (state_updates nbh ns g) in Hat. rewrite Hat in Hi. clear Hat.
  set (before := for_each (seq 0 i) (state_update nbh) ns g) in *.
  assert (HP : length before.1 = length ns ∧
               ∀ j n, before.1 !! j = Some n →
                 (1 <= Neuron.memory n <= 3)%Z ∧
                 (Neuron.phase n = LIQUID → deref ns (neighborhood nbh j) ≠ [])).
  { apply (for_each_invariant (state_update nbh)
             (λ s, length s = length ns ∧
                   ∀ j n, s !! j = Some n →
                     (1 <= Neuron.memory n <= 3)%Z ∧
                     (Neuron.phase n = LIQUID →
                      deref ns (neighborhood nbh j) ≠ []))); [|done].
    intros k s g0 [Hlen Hs]. split; [by rewrite state_update_length|].
    intros j m Hj. destruct (decide (j = k)) as [->|Hne].
    - destruct (s !! k) as [m0|] eqn:Hk.
      + rewrite (state_update_at _ _ _ _ _ Hk) in Hj. simplify_eq. cbv zeta.
        destruct (Hs _ _ Hk) as [Hm Hl]. split; [|exact Hl]. simpl.
        apply next_state_range; [done|].
        intros Hliq Hnil. apply (Hl Hliq).
        apply deref_nil. rewrite <- Hlen. by apply deref_nil.
      + apply lookup_ge_None in Hk. apply lookup_lt_Some in Hj.
        rewrite state_update_length in Hj. lia.
    - rewrite state_update_local in Hj by done. by apply Hs. }
  destruct HP as [Hlen HP].
  destruct (ns !! i) as [n|] eqn:Hn; [|apply lookup_ge_None in Hn; lia].
  assert (Hb : before.1 !! i = Some n) by (rewrite Hge by lia; done).
  rewrite (state_update_at _ _ _ _ _ Hb) in Hi. simplify_eq. cbv zeta.
  destruct (HP _ _ Hb) as [Hm Hl]. split; [|done]. simpl.
  apply next_state_range; [done|].
  intros Hliq Hnil. apply (Hl Hliq).
  apply deref_nil. rewrite <- Hlen. by apply deref_nil.
Qed.

(* ------------------------------------------------------------------ *)
(** ** The spatial pass *)

Lemma drift_core cfg n m : core (drift cfg n m) = core n.
Proof. unfold drift. cbv zeta. by case_match. Qed.

Lemma foldl_drift_core cfg ms n : core (foldl (drift cfg) n ms) = core n.
Proof.
  revert n. induction ms as [|m ms IH]; intros n; [done|].
  simpl. by rewrite IH, drift_core.
Qed.

Lemma spatial_update_local cfg nbh i store g j :
  j ≠ i → (spatial_update cfg nbh i store g).1 !! j = store !! j.
Proof.
  intros Hne. unfold spatial_update. destruct (store !! i); [|done].
  rewrite !bind_eq. unfold ret; cbn [fst]. by apply list_lookup_insert_ne.
Qed.

Lemma spatial_update_length cfg nbh i store g :
  length (spatial_update cfg nbh i store g).1 = length store.
Proof.
  unfold spatial_update. destruct (store !! i); [|done].
  rewrite !bind_eq. unfold ret; cbn [fst]. apply length_insert.
Qed.

Lemma spatial_update_at cfg nbh i store g n :
  store !! i = Some n →
  (spatial_update cfg nbh i store g).1 !! i
  = Some (jitter cfg (foldl (drift cfg) n (deref store (neighborhood nbh i))) g).1.
Proof.
  intros Hi. unfold spatial_update. rewrite Hi, bind_eq. unfold ret; cbn [fst].
  apply list_lookup_insert_eq. by eapply lookup_lt_Some.
Qed.

Lemma spatial_update_core cfg nbh i store g j :
  core <$> (spatial_update cfg nbh i store g).1 !! j = core <$> store !! j.
Proof.
  destruct (decide (j = i)) as [->|Hne]; [|by rewrite spatial_update_local].
  unfold spatial_update.
  destruct (store !! i) as [n|] eqn:E; [|unfold ret; cbn [fst]; by rewrite E].
  rewrite !bind_eq. unfold ret; cbn [fst].
  rewrite list_lookup_insert_eq by (by eapply lookup_lt_Some).
  rewrite ?E. simpl. f_equal.
  exact (foldl_drift_core cfg (deref store (neighborhood nbh i)) n).
Qed.

Lemma spatial_updates_length cfg nbh ns g :
  length (spatial_updates cfg nbh ns g).1 = length ns.
Proof. apply for_each_length. intros. apply spatial_update_length. Qed.

(** The spatial pass moves neurons and changes nothing else. *)
Lemma spatial_updates_core cfg nbh ns g j :
  core <$> (spatial_updates cfg nbh ns g).1 !! j = core <$> ns !! j.
Proof.
  revert j.
  apply (for_each_invariant (spatial_update cfg nbh)
           (λ s, ∀ j, core <$> s !! j = core <$> ns !! j)); [|done].
  intros k s g0 Hs j. by rewrite spatial_update_core.
Qed.

Lemma settled_core n n' : core n' = core n → settled n → settled n'.
Proof.
  unfold core, settled. intros H [Hs Hm]. simplify_eq. split; [lia|congruence].
Qed.

Lemma spatial_updates_settled cfg nbh ns g :
  (∀ n, n ∈ ns → settled n) →
  ∀ n, n ∈ (spatial_updates cfg nbh ns g).1 → settled n.
Proof.
  intros Hns n' Hin. apply list_elem_of_lookup in Hin as [j Hj].
  pose proof (spatial_updates_core cfg nbh ns g j) as Hc.
  rewrite Hj in Hc. destruct (ns !! j) as [n|] eqn:E; [|done].
  simplify_eq/=. apply (settled_core n); [unfold core; congruence|].
  apply Hns. by eapply list_elem_of_lookup_2.
Qed.

(* ------------------------------------------------------------------ *)
(** ** The predator *)

Lemma filter_length_bound {A} (f : A → bool) (l : list A) :
  length (List.filter f l) ≤ length l.
Proof. induction l as [|a l IH]; simpl; [lia|]. destruct (f a); simpl; lia. Qed.

Lemma hunt_from cfg p ns acc q :
  Predator.x q = Predator.x p → Predator.y q = Predator.y p →
  let f := λ '(remaining_neurons, p) n,
             if Neuron.distance_lt n (Predator.x p) (Predator.y p) (PREDATOR_RADIUS cfg)
             then (remaining_neurons, Predator.eat p)
             else (remaining_neurons ++ [n], p) in
  let r := foldl f (acc, q) ns in
  r.1 = acc ++ List.filter (out_of_reach cfg (Predator.x p) (Predator.y p)) ns ∧
  Predator.x r.2 = Predator.x p ∧ Predator.y r.2 = Predator.y p ∧
  Predator.neurons_eaten r.2
  = (Predator.neurons_eaten q + Z.of_nat (length ns)
     - Z.of_nat (length (List.filter (out_of_reach cfg (Predator.x p) (Predator.y p)) ns)))%Z.
Proof.
  intros Hx Hy f. revert acc q Hx Hy.
  induction ns as [|n ns IH]; intros acc q Hx Hy r.
  - subst r. simpl. rewrite app_nil_r. repeat split; try done. lia.
  - subst r. cbn [foldl List.filter length].
    assert (Hf : f (acc, q) n =
      if Neuron.distance_lt n (Predator.x p) (Predator.y p) (PREDATOR_RADIUS cfg)
      then (acc, Predator.eat q) else (acc ++ [n], q)).
    { unfold f. by rewrite Hx, Hy. }
    rewrite Hf.
    change (out_of_reach cfg (Predator.x p) (Predator.y p) n)
      with (negb (Neuron.distance_lt n (Predator.x p) (Predator.y p) (PREDATOR_RADIUS cfg))).
    destruct (Neuron.distance_lt n (Predator.x p) (Predator.y p) (PREDATOR_RADIUS cfg));
      cbn [negb].
    + destruct (IH acc (Predator.eat q) Hx Hy) as (E1 & E2 & E3 & E4).
      repeat split; try done. rewrite E4. cbn [Predator.eat Predator.neurons_eaten]. lia.
    + destruct (IH (acc ++ [n]) q Hx Hy) as (E1 & E2 & E3 & E4).
      rewrite E1, <- app_assoc. repeat split; try done.
      rewrite E4. cbn [length]. lia.
Qed.

(** The hunt keeps, in order, the neurons out of the predator's reach and
    counts the others. *)
Lemma hunt_spec cfg p ns :
  (hunt cfg p ns).1 = List.filter (out_of_reach cfg (Predator.x p) (Predator.y p)) ns ∧
  Predator.neurons_eaten (hunt cfg p ns).2
  = (Predator.neurons_eaten p + Z.of_nat (length ns)
     - Z.of_nat (length (hunt cfg p ns).1))%Z.
Proof.
  destruct (hunt_from cfg p ns [] p eq_refl eq_refl) as (E1 & _ & _ & E4).
  unfold hunt. split; [exact E1|]. rewrite E4. f_equal. f_equal.
  by rewrite E1.
Qed.

Lemma hunt_length cfg p ns : length (hunt cfg p ns).1 ≤ length ns.
Proof. destruct (hunt_spec cfg p ns) as [-> _]. apply filter_length_bound. Qed.

Lemma hunt_subset cfg p ns n : n ∈ (hunt cfg p ns).1 → n ∈ ns.
Proof.
  destruct (hunt_spec cfg p ns) as [-> _].
  rewrite !list_elem_of_In. intros H. by apply List.filter_In in H as [H _].
Qed.

Lemma move_eaten M cfg p g :
  Predator.neurons_eaten (Predator.move M cfg p g).1 = Predator.neurons_eaten p.
Proof. unfold Predator.move. by rewrite !bind_eq. Qed.

Lemma predator_interaction_cases M cfg pred ns g :
  match pred with
  | None => predator_interaction M cfg pred ns g = ((ns, None), g)
  | Some p =>
      let moved := Predator.move M cfg p g in
      predator_interaction M cfg pred ns g
      = (((hunt cfg moved.1 ns).1, Some (hunt cfg moved.1 ns).2), moved.2)
  end.
Proof.
  destruct pred as [p|]; [|done]. cbv zeta.
  unfold predator_interaction. rewrite bind_eq.
  by destruct (hunt cfg _ ns).
Qed.

Lemma spawn_cases cfg pred timer g :
  ((timer <= 0)%Z ∧
   spawn_predator cfg pred timer g
   = ((Some (Predator.init g).1, PREDATOR_INTERVAL cfg), (Predator.init g).2)) ∨
  ((0 < timer)%Z ∧ spawn_predator cfg pred timer g = ((pred, (timer - 1)%Z), g)).
Proof.
  unfold spawn_predator. destruct (Z.leb_spec timer 0).
  - left. split; [done|]. by rewrite bind_eq.
  - right. done.
Qed.

Lemma init_eaten g : Predator.neurons_eaten (Predator.init g).1 = 0%Z.
Proof. unfold Predator.init. by rewrite !bind_eq. Qed.

(* ------------------------------------------------------------------ *)
(** ** What a step does to the world *)

Lemma update_fields M cfg frame w g w' g' :
  update M cfg frame w g = inr (w', g') →
  ∃ ns0, poke cfg frame (neurons w) = inr ns0 ∧
    let s := spawn_predator cfg (predator w) (predator_timer w) g in
    let nbh := discover cfg ns0 in
    let ns1 := phase_updates (spider w) nbh ns0 in
    let m := plasma_mutate_spider ns1 (spider w) s.2 in
    let st := state_updates nbh ns1 m.2 in
    let sp := spatial_updates cfg nbh st.1 st.2 in
    let h := predator_interaction M cfg s.1.1 sp.1 sp.2 in
    neurons w' = h.1.1 ∧ predator w' = h.1.2 ∧ predator_timer w' = s.1.2 ∧
    spider w' = m.1 ∧ g' = h.2.
Proof.
  intros H. destruct (poke cfg frame (neurons w)) as [e|ns0] eqn:E.
  - apply (update_fails M cfg frame w g) in E. rewrite E in H. discriminate.
  - exists ns0. split; [done|].
    rewrite (update_passes M cfg frame w g ns0 E) in H.
    cbv zeta in H. injection H as <- <-. done.
Qed.

(** The population the hunt looks at has the size the step started with. *)
Lemma passes_length cfg frame w ns0 g1 g2 :
  poke cfg frame (neurons w) = inr ns0 →
  let nbh := discover cfg ns0 in
  let ns1 := phase_updates (spider w) nbh ns0 in
  let st := state_updates nbh ns1 g1 in
  length (spatial_updates cfg nbh st.1 g2).1 = length (neurons w).
Proof.
  intros Hpoke. cbv zeta.
  rewrite spatial_updates_length, state_updates_length, phase_updates_length.
  by apply poke_keeps in Hpoke as [-> _].
Qed.

(** The predator and the countdown after a step: with a positive
    countdown the predator, if any, is the old one with its meals added;
    otherwise it is a new one that has eaten what the step removed. *)
Lemma update_predator M cfg frame w g w' g' :
  update M cfg frame w g = inr (w', g') →
  length (neurons w') ≤ length (neurons w) ∧
  ((0 < predator_timer w)%Z →
     predator_timer w' = (predator_timer w - 1)%Z ∧
     match predator w with
     | None => predator w' = None ∧ length (neurons w') = length (neurons w)
     | Some p =>
         ∃ p', predator w' = Some p' ∧
           Predator.neurons_eaten p'
           = (Predator.neurons_eaten p + Z.of_nat (length (neurons w))
              - Z.of_nat (length (neurons w')))%Z
     end) ∧
  ((predator_timer w <= 0)%Z →
     predator_timer w' = PREDATOR_INTERVAL cfg ∧
     ∃ p', predator w' = Some p' ∧
       Predator.neurons_eaten p'
       = (Z.of_nat (length (neurons w)) - Z.of_nat (length (neurons w')))%Z).
Proof.
  intros H. apply update_fields in H as (ns0 & Hpoke & H). cbv zeta in H.
  destruct H as (Hn & Hp & Ht & _ & _).
  set (s := spawn_predator cfg (predator w) (predator_timer w) g) in *.
  set (nbh := discover cfg ns0) in *.
  set (ns1 := phase_updates (spider w) nbh ns0) in *.
  set (m := plasma_mutate_spider ns1 (spider w) s.2) in *.
  set (st := state_updates nbh ns1 m.2) in *.
  set (ns3 := spatial_updates cfg nbh st.1 st.2) in *.
  assert (Hlen : length ns3.1 = length (neurons w))
    by exact (passes_length cfg frame w ns0 m.2 st.2 Hpoke).
  pose proof (predator_interaction_cases M cfg s.1.1 ns3.1 ns3.2) as Hcase.
  destruct (spawn_cases cfg (predator w) (predator_timer w) g) as [[Hle Hs]|[Hgt Hs]];
    fold s in Hs; rewrite Hs in Hcase, Ht, Hn, Hp; cbn [fst snd] in Hcase, Ht, Hn, Hp.
  - cbv zeta in Hcase. rewrite Hcase in Hn, Hp. cbn [fst snd] in Hn, Hp.
    set (moved := Predator.move M cfg (Predator.init g).1 ns3.2) in *.
    pose proof (hunt_length cfg moved.1 ns3.1) as Hl.
    destruct (hunt_spec cfg moved.1 ns3.1) as [_ He].
    rewrite <- Hn in Hl, He. rewrite Hlen in Hl, He.
    split; [done|]. split; [lia|]. intros _. split; [done|].
    eexists. split; [exact Hp|]. rewrite He. unfold moved.
    rewrite move_eaten, init_eaten. lia.
  - destruct (predator w) as [p|] eqn:Hpred.
    + cbv zeta in Hcase. rewrite Hcase in Hn, Hp. cbn [fst snd] in Hn, Hp.
      set (moved := Predator.move M cfg p ns3.2) in *.
      pose proof (hunt_length cfg moved.1 ns3.1) as Hl.
      destruct (hunt_spec cfg moved.1 ns3.1) as [_ He].
      rewrite <- Hn in Hl, He. rewrite Hlen in Hl, He.
      split; [done|]. split; [|lia]. intros _. split; [done|].
      eexists. split; [exact Hp|]. rewrite He. unfold moved.
      by rewrite move_eaten.
    + rewrite Hcase in Hn, Hp. cbn [fst snd] in Hn, Hp.
      rewrite Hn, Hlen. split; [done|]. split; [|lia]. intros _. done.
Qed.

(* ------------------------------------------------------------------ *)
(** ** The predator over the steps *)

(** C1, as the program has it.  In every step the spawn countdown is
    decremented when it is positive, whether or not a predator exists,
    and a predator is then neither created nor removed.  When the
    countdown is not positive the step creates a new predator, which
    replaces the one there may be and has eaten exactly what that step
    removes, and resets the countdown.  A predator is never removed:
    once one exists, one exists after every later step. *)
Theorem spawn_countdown_rule M cfg frame w g w' g' :
  update M cfg frame w g = inr (w', g') →
  ((0 < predator_timer w)%Z →
     predator_timer w' = (predator_timer w - 1)%Z ∧
     (predator w = None ↔ predator w' = None)) ∧
  ((predator_timer w <= 0)%Z →
     predator_timer w' = PREDATOR_INTERVAL cfg ∧
     ∃ p', predator w' = Some p' ∧
       Predator.neurons_eaten p'
       = (Z.of_nat (length (neurons w)) - Z.of_nat (length (neurons w')))%Z) ∧
  (is_Some (predator w) → is_Some (predator w')).
Proof.
  intros H. destruct (update_predator M cfg frame w g w' g' H) as (_ & Hpos & Hneg).
  repeat split.
  - by apply Hpos.
  - intros Hnone. destruct (Hpos H0) as [_ Hp]. rewrite Hnone in Hp. by destruct Hp.
  - intros Hnone. destruct (Hpos H0) as [_ Hp].
    destruct (predator w); [|done]. destruct Hp as (p' & Hp' & _). congruence.
  - by apply Hneg.
  - by apply Hneg.
  - intros [p Hp]. destruct (Z.lt_ge_cases 0 (predator_timer w)) as [Hgt|Hle].
    + destruct (Hpos Hgt) as [_ Hp']. rewrite Hp in Hp'.
      destruct Hp' as (p' & -> & _). by eexists.
    + destruct (Hneg Hle) as (_ & p' & -> & _). by eexists.
Qed.

Lemma spawn_countdown_rule_witness :
  predator_timer next_world.1 = 99%Z ∧ predator next_world.1 = None.
Proof.
  assert (Hstep : update series_math source_config 0 start_world.1 start_world.2
                  = inr (next_world.1, next_world.2))
    by (vm_compute; reflexivity).
  destruct (spawn_countdown_rule _ _ _ _ _ _ _ Hstep) as (Hpos & _ & _).
  destruct Hpos as [Ht Hp]; [vm_compute; reflexivity|].
  split; [rewrite Ht; vm_compute; reflexivity|].
  apply Hp. vm_compute; reflexivity.
Defined.

(** C1 fails as stated.  On [still_tape] the program's own constants
    give: after step 100 a predator exists (it has eaten the twenty
    neurons) and the countdown is 100; step 101 decrements the countdown
    to 99 although the predator exists; after step 200 the countdown is
    0 and the predator, hungry for 100 steps, has eaten 20; step 201
    replaces it by a new predator that has eaten nothing and has moved
    once. *)
Lemma predator_respawns_while_present :
  after (λ w, (predator w, predator_timer w))
        (run series_math source_config 101 still_tape)
  = inr (Some (Predator.mk (83 # 160) (1 # 2) 20 0), 100%Z) ∧
  after (λ w, (predator w, predator_timer w))
        (run series_math source_config 102 still_tape)
  = inr (Some (Predator.mk (91 # 160) (1 # 2) 20 1), 99%Z) ∧
  after (λ w, (predator w, predator_timer w))
        (run series_math source_config 201 still_tape)
  = inr (Some (Predator.mk 0 0 20 100), 0%Z) ∧
  after (λ w, (predator w, predator_timer w))
        (run series_math source_config 202 still_tape)
  = inr (Some (Predator.mk (1 # 20) 0 0 1), 100%Z).
Proof. split; [|split; [|split]]; vm_compute; reflexivity. Qed.

(** C2, as the program has it.  Across every step the population never
    grows.  Across a step that begins with a positive spawn countdown
    the eaten count never decreases: it grows by the number of neurons
    the step removes. *)
Theorem predation_monotone_between_spawns M cfg frame w g w' g' :
  update M cfg frame w g = inr (w', g') →
  length (neurons w') ≤ length (neurons w) ∧
  ((0 < predator_timer w)%Z →
     (eaten_count w <= eaten_count w')%Z ∧
     eaten_count w'
     = (eaten_count w + Z.of_nat (length (neurons w))
        - Z.of_nat (length (neurons w')))%Z).
Proof.
  intros H. destruct (update_predator M cfg frame w g w' g' H) as (Hlen & Hpos & _).
  split; [done|]. intros Hgt. destruct (Hpos Hgt) as [_ Hp].
  unfold eaten_count. destruct (predator w) as [p|].
  - destruct Hp as (p' & -> & ->). lia.
  - destruct Hp as [-> ->]. lia.
Qed.

Lemma predation_monotone_between_spawns_witness :
  length (neurons next_world.1) ≤ 20 ∧ (0 <= eaten_count next_world.1)%Z.
Proof.
  assert (Hstep : update series_math source_config 0 start_world.1 start_world.2
                  = inr (next_world.1, next_world.2))
    by (vm_compute; reflexivity).
  destruct (predation_monotone_between_spawns _ _ _ _ _ _ _ Hstep) as [Hlen Hpos].
  split; [exact Hlen|].
  destruct Hpos as [Hle _]; [vm_compute; reflexivity|]. exact Hle.
Defined.

(** C2 fails as stated.  On [still_tape] the program's own constants
    give an eaten count of 20 after step 200 and of 0 after step 201,
    the step that replaces the predator. *)
Lemma eaten_count_restarts :
  after eaten_count (run series_math source_config 201 still_tape) = inr 20%Z ∧
  after eaten_count (run series_math source_config 202 still_tape) = inr 0%Z.
Proof. split; vm_compute; reflexivity. Qed.

(* ------------------------------------------------------------------ *)
(** ** The spider over the steps *)

(** C6.  Take the population as the classification pass of a step
    leaves it, every neuron carrying the phase [apply] gave it in that
    pass.  If one of them is PLASMA the spider of the next step is a new
    one: its [solid_thresh] is [0.1 + (0.4 - 0.1) * u1] and its
    [plasma_thresh] is [0.6 + (0.9 - 0.6) * u2] for the next two draws
    [u1], [u2] of [random()], hence in the bands from 0.1 to 0.4 and from
    0.6 to 0.9.  If none is PLASMA the spider of the next step is the
    spider of this step. *)
Theorem spider_mutation_rule M cfg frame w g w' g' ns1 :
  update M cfg frame w g = inr (w', g') →
  classified cfg frame w = inr ns1 →
  let g1 := (spawn_predator cfg (predator w) (predator_timer w) g).2 in
  let u1 := (random.random g1).1 in
  let u2 := (random.random (random.random g1).2).1 in
  (∀ i n, ns1 !! i = Some n →
     ∃ n0 neighbors, n = TensionSpider.apply (spider w) n0 neighbors) ∧
  ((∃ n, n ∈ ns1 ∧ Neuron.phase n = PLASMA) →
     (TensionSpider.solid_thresh (spider w') == (1 # 10) + ((2 # 5) - (1 # 10)) * u1)%Q ∧
     (TensionSpider.plasma_thresh (spider w') == (3 # 5) + ((9 # 10) - (3 # 5)) * u2)%Q ∧
     (1 # 10 <= TensionSpider.solid_thresh (spider w'))%Q ∧
     (TensionSpider.solid_thresh (spider w') < 2 # 5)%Q ∧
     (3 # 5 <= TensionSpider.plasma_thresh (spider w'))%Q ∧
     (TensionSpider.plasma_thresh (spider w') < 9 # 10)%Q) ∧
  ((∀ n, n ∈ ns1 → Neuron.phase n ≠ PLASMA) → spider w' = spider w).
Proof.
  intros H Hc g1 u1 u2.
  apply update_fields in H as (ns0 & Hpoke & H). cbv zeta in H.
  destruct H as (_ & _ & _ & Hsp & _).
  unfold classified in Hc. rewrite Hpoke in Hc. injection Hc as <-.
  fold g1 in Hsp. repeat split.
  - intros i n Hn.
    assert (Hlt : i < length ns0).
    { rewrite <- (phase_updates_length (spider w) (discover cfg ns0)).
      by eapply lookup_lt_Some. }
    destruct (ns0 !! i) as [n0|] eqn:E; [|apply lookup_ge_None in E; lia].
    rewrite (phase_updates_lookup _ _ _ _ _ E) in Hn. injection Hn as <-.
    by eexists _, _.
  - rewrite Hsp, (mutate_with_plasma _ _ _ H). cbn [fst TensionSpider.solid_thresh].
    apply uniform_eq.
  - rewrite Hsp, (mutate_with_plasma _ _ _ H). cbn [fst TensionSpider.plasma_thresh].
    destruct (uniform_eq (3 # 5) (9 # 10) (random.uniform (1 # 10) (2 # 5) g1).2)
      as [E _].
    rewrite E. by destruct (uniform_eq (1 # 10) (2 # 5) g1) as [_ ->].
  - rewrite Hsp, (mutate_with_plasma _ _ _ H). cbn [fst TensionSpider.solid_thresh].
    destruct (uniform_eq (1 # 10) (2 # 5) g1) as [E _].
    destruct (random_range g1). lra.
  - rewrite Hsp, (mutate_with_plasma _ _ _ H). cbn [fst TensionSpider.solid_thresh].
    destruct (uniform_eq (1 # 10) (2 # 5) g1) as [E _].
    destruct (random_range g1). lra.
  - rewrite Hsp, (mutate_with_plasma _ _ _ H). cbn [fst TensionSpider.plasma_thresh].
    destruct (uniform_eq (3 # 5) (9 # 10) (random.uniform (1 # 10) (2 # 5) g1).2)
      as [E _].
    destruct (random_range (random.uniform (1 # 10) (2 # 5) g1).2). lra.
  - rewrite Hsp, (mutate_with_plasma _ _ _ H). cbn [fst TensionSpider.plasma_thresh].
    destruct (uniform_eq (3 # 5) (9 # 10) (random.uniform (1 # 10) (2 # 5) g1).2)
      as [E _].
    destruct (random_range (random.uniform (1 # 10) (2 # 5) g1).2). lra.
  - intros Hno. by rewrite Hsp, (mutate_without_plasma _ _ _ Hno).
Qed.

Lemma spider_mutation_rule_witness :
  (1 # 10 <= TensionSpider.solid_thresh (spider trio_next.1))%Q ∧
  (TensionSpider.plasma_thresh (spider trio_next.1) < 9 # 10)%Q.
Proof.
  assert (Hstep : update series_math source_config 0 trio_start.1 trio_start.2
                  = inr (trio_next.1, trio_next.2))
    by (vm_compute; reflexivity).
  assert (Hc : classified source_config 0 trio_start.1 = inr trio_classified)
    by (vm_compute; reflexivity).
  destruct (spider_mutation_rule _ _ _ _ _ _ _ _ Hstep Hc) as (_ & Hplasma & _).
  destruct Hplasma as (_ & _ & Hlo & _ & _ & Hhi).
  - exists (Neuron.mk (3 # 16) (1 # 8) 2 PLASMA 2). split; [|reflexivity].
    apply list_elem_of_lookup. exists 1%nat. vm_compute; reflexivity.
  - split; [exact Hlo|exact Hhi].
Defined.

Lemma update_ordered M cfg frame w g w' g' :
  update M cfg frame w g = inr (w', g') →
  (TensionSpider.solid_thresh (spider w) < TensionSpider.plasma_thresh (spider w))%Q →
  (TensionSpider.solid_thresh (spider w') < TensionSpider.plasma_thresh (spider w'))%Q.
Proof.
  intros H Hord. apply update_fields in H as (ns0 & _ & H). cbv zeta in H.
  destruct H as (_ & _ & _ & -> & _).
  match goal with |- context [plasma_mutate_spider ?ns ?sp ?g] =>
    destruct (mutate_cases ns sp g) as [->|(? & ? & ? & ?)] end; [done|lra].
Qed.

(** C9.  After any number of steps the thresholds of the spider satisfy
    [solid_thresh < plasma_thresh]: the first spider has 0.2 and 0.8,
    and every replacement draws them from the two disjoint bands. *)
Theorem thresholds_ordered M cfg k g w g' :
  run M cfg k g = inr (w, g') →
  (TensionSpider.solid_thresh (spider w) < TensionSpider.plasma_thresh (spider w))%Q.
Proof.
  revert w g'. induction k as [|k IH]; intros w g' H.
  - simpl in H. injection H as H. unfold init_world in H.
    rewrite bind_eq in H. unfold ret in H. injection H as <- _. done.
  - simpl in H. destruct (run M cfg k g) as [e|[w0 g0]]; [discriminate|].
    eapply update_ordered; [exact H|]. by eapply IH.
Qed.

Lemma thresholds_ordered_witness :
  (TensionSpider.solid_thresh (spider next_world.1)
   < TensionSpider.plasma_thresh (spider next_world.1))%Q.
Proof.
  apply (thresholds_ordered series_math source_config 1 still_tape
           next_world.1 next_world.2).
  vm_compute; reflexivity.
Defined.

(* ------------------------------------------------------------------ *)
(** ** States and memories over the steps *)

Lemma init_settled g : settled (Neuron.init g).1.
Proof.
  unfold Neuron.init. rewrite !bind_eq. unfold ret; cbn [fst].
  split; [apply randint_1_3|reflexivity].
Qed.

Lemma make_neurons_settled k g n : n ∈ (make_neurons k g).1 → settled n.
Proof.
  revert g. induction k as [|k IH]; intros g Hn.
  - by apply elem_of_nil in Hn.
  - simpl in Hn. rewrite !bind_eq in Hn. unfold ret in Hn. cbn [fst] in Hn.
    apply elem_of_cons in Hn as [->|Hn]; [apply init_settled|by eapply IH].
Qed.

Lemma make_neurons_length k g : length (make_neurons k g).1 = k.
Proof.
  revert g. induction k as [|k IH]; intros g; [done|].
  simpl. rewrite !bind_eq. unfold ret; cbn [fst length]. by rewrite IH.
Qed.

(** A step takes a population of settled neurons to one: the poke
    leaves the memories alone, the phase pass makes no neuron without
    neighbours LIQUID, the state pass settles every neuron, and the
    spatial pass and the hunt change no state and no memory. *)
Lemma update_settled M cfg frame w g w' g' :
  (∀ n, n ∈ neurons w → settled n) →
  update M cfg frame w g = inr (w', g') →
  ∀ n, n ∈ neurons w' → settled n.
Proof.
  intros Hw H. apply update_fields in H as (ns0 & Hpoke & H). cbv zeta in H.
  destruct H as (Hn & _ & _ & _ & _).
  set (s := spawn_predator cfg (predator w) (predator_timer w) g) in *.
  set (nbh := discover cfg ns0) in *.
  set (ns1 := phase_updates (spider w) nbh ns0) in *.
  set (m := plasma_mutate_spider ns1 (spider w) s.2) in *.
  set (st := state_updates nbh ns1 m.2) in *.
  set (ns3 := spatial_updates cfg nbh st.1 st.2) in *.
  destruct (poke_keeps cfg frame (neurons w) ns0 Hpoke) as [Hlen0 Hmem0].
  assert (Hst : ∀ n, n ∈ st.1 → settled n).
  { apply state_updates_settled. intros j n Hj.
    assert (Hlt : j < length ns0).
    { rewrite <- (phase_updates_length (spider w) nbh). by eapply lookup_lt_Some. }
    destruct (ns0 !! j) as [n0|] eqn:E0; [|apply lookup_ge_None in E0; lia].
    fold ns1 in Hj. unfold ns1 in Hj.
    rewrite (phase_updates_lookup _ _ _ _ _ E0) in Hj. injection Hj as <-.
    split.
    - destruct (apply_keeps (spider w) n0 (deref ns0 (neighborhood nbh j)))
        as (_ & _ & _ & ->).
      specialize (Hmem0 j). rewrite E0 in Hmem0.
      destruct (neurons w !! j) as [n1|] eqn:E1; [|done].
      injection Hmem0 as ->.
      assert (Hs : settled n1) by (apply Hw; by eapply list_elem_of_lookup_2).
      destruct Hs as [Hr ->]. exact Hr.
    - intros Hliq Hnil. apply apply_liquid in Hliq. apply Hliq.
      apply deref_nil. rewrite <- (phase_updates_length (spider w) nbh ns0).
      by apply deref_nil. }
  assert (H3 : ∀ n, n ∈ ns3.1 → settled n)
    by (by apply spatial_updates_settled).
  intros n Hin. rewrite Hn in Hin.
  pose proof (predator_interaction_cases M cfg s.1.1 ns3.1 ns3.2) as Hcase.
  destruct s.1.1 as [p|].
  - cbv zeta in Hcase. rewrite Hcase in Hin. cbn [fst] in Hin.
    apply H3. by eapply hunt_subset.
  - rewrite Hcase in Hin. cbn [fst] in Hin. by apply H3.
Qed.

(** C8.  After any number of steps every neuron of the population has a
    state among 1, 2, 3 and a memory equal to its state, whatever the
    configuration, the poke included. *)
Theorem states_settled M cfg k g w g' :
  run M cfg k g = inr (w, g') →
  ∀ n, n ∈ neurons w → settled n.
Proof.
  revert w g'. induction k as [|k IH]; intros w g' H.
  - simpl in H. injection H as H. unfold init_world in H.
    rewrite bind_eq in H. unfold ret in H. injection H as <- _.
    cbn [neurons]. intros n. apply make_neurons_settled.
  - simpl in H. destruct (run M cfg k g) as [e|[w0 g0]]; [discriminate|].
    eapply update_settled; [|exact H]. by eapply IH.
Qed.

Lemma states_settled_witness :
  Forall settled (neurons next_world.1).
Proof.
  apply Forall_forall.
  apply (states_settled series_math source_config 1 still_tape
           next_world.1 next_world.2).
  vm_compute; reflexivity.
Defined.

(* ------------------------------------------------------------------ *)
(** ** Configuration *)

(** C5, as the program has it.  Nothing validates the configuration.
    The initialisation builds as many neurons as [NUM_NEURONS] asks
    for, none when it is zero or negative, and the world it builds
    depends on no other constant than [PREDATOR_INTERVAL]: radius,
    drift and noise are left for the steps, which use them as given.  The poke target is looked
    at in the poke step only: at any other step the program does the
    same whatever the target, and at the poke step a target that is not
    an index of the population, counted from the front or, negative,
    from the back, makes the step fail with an IndexError. *)
Theorem configuration_unchecked M cfg :
  (∀ g, length (neurons (init_world cfg g).1) = Z.to_nat (NUM_NEURONS cfg)) ∧
  (∀ cfg' g,
     NUM_NEURONS cfg' = NUM_NEURONS cfg →
     PREDATOR_INTERVAL cfg' = PREDATOR_INTERVAL cfg →
     init_world cfg' g = init_world cfg g) ∧
  (∀ target frame w g,
     frame ≠ POKE_STEP cfg →
     update M (with_poke_neuron cfg target) frame w g = update M cfg frame w g) ∧
  (∀ w g,
     ¬ (- Z.of_nat (length (neurons w)) <= POKE_NEURON cfg
        < Z.of_nat (length (neurons w)))%Z →
     update M cfg (POKE_STEP cfg) w g = inl IndexError).
Proof.
  split; [|split; [|split]].
  - intros g. unfold init_world. rewrite bind_eq. unfold ret; cbn [fst neurons].
    apply make_neurons_length.
  - intros cfg' g Hn Hp. unfold init_world. by rewrite Hn, Hp.
  - intros target frame w g Hne.
    destruct (poke_cases cfg frame (neurons w)) as [[_ E]|[(Heq & _)|(Heq & _)]];
      [|done|done].
    destruct (poke_cases (with_poke_neuron cfg target) frame (neurons w))
      as [[_ E']|[(Heq & _)|(Heq & _)]]; [|done|done].
    rewrite (update_passes _ _ _ _ _ _ E), (update_passes _ _ _ _ _ _ E').
    reflexivity.
  - intros w g Hout. apply update_fails.
    destruct (poke_cases cfg (POKE_STEP cfg) (neurons w))
      as [[Hne _]|[(_ & _ & E)|(_ & i & Hsome & _)]]; [done|done|].
    apply py_index_None in Hout. congruence.
Qed.

(** C5 fails as stated.  With a negative radius, drift and noise and
    the poke target 99 for twenty neurons, the program starts with its
    twenty neurons and runs its first fifty steps; the failure comes at
    the poke step and is an IndexError. *)
Lemma invalid_configuration_accepted :
  after (λ w, length (neurons w)) (run series_math careless_config 0 zero_tape)
  = inr 20 ∧
  after (λ w, length (neurons w)) (run series_math careless_config 50 zero_tape)
  = inr 20 ∧
  after (λ w, length (neurons w)) (run series_math careless_config 51 zero_tape)
  = inl IndexError.
Proof.
  split; [|split]; vm_compute; reflexivity.
Qed.

(* ------------------------------------------------------------------ *)
(** ** What the passes read *)

Lemma deref_live_view (before final ns : list Neuron.t) (i : nat) (refs : list nat) :
  (∀ j, j < i → before !! j = final !! j) →
  (∀ j, i ≤ j → before !! j = ns !! j) →
  deref before refs = live_view i final ns refs.
Proof.
  intros Hlt Hge. unfold deref, live_view.
  induction refs as [|r refs IH]; [done|]. cbn [omap list_omap].
  rewrite IH. destruct (Nat.ltb_spec r i) as [H|H].
  - by rewrite Hlt.
  - by rewrite Hge.
Qed.

Lemma spatial_prefix_core cfg nbh ns g k j :
  core <$> (for_each (seq 0 k) (spatial_update cfg nbh) ns g).1 !! j
  = core <$> ns !! j.
Proof.
  revert j.
  apply (for_each_invariant (spatial_update cfg nbh)
           (λ s, ∀ j, core <$> s !! j = core <$> ns !! j)); [|done].
  intros i s g0 Hs j. by rewrite spatial_update_core.
Qed.

(** C3, as the program has it.  The neighbour lists are those found when
    the step began, but the states are read through them from the live
    population.  The state pass handles the neurons in index order:
    when it comes to neuron [i], the neighbours of smaller index have
    the states this pass has given them and the others the states they
    had when the pass began, and the new state of [i], for a LIQUID
    neuron the rounded mean of the neighbour states plus the drawn
    step, clamped, is computed from those.  The spatial pass reads the
    neighbours in the same way; it changes no state, so the states its
    comparison reads are those the state pass left.  The two passes are
    those a step runs ([update_passes]). *)
Theorem passes_read_live_states cfg nbh ns g i n :
  ns !! i = Some n →
  let refs := neighborhood nbh i in
  let final := state_updates nbh ns g in
  let g_i := (for_each (seq 0 i) (state_update nbh) ns g).2 in
  let seen := live_view i final.1 ns refs in
  final.1 !! i
  = Some (let s := (next_state n seen g_i).1 in
          Neuron.set_memory (Neuron.set_state n s) s) ∧
  (Neuron.phase n = LIQUID → seen ≠ [] →
   Neuron.state <$> final.1 !! i
   = Some (Z.max 1 (Z.min 3
             (Float.round
                (Float.of_int (TensionSpider.sum_int (map Neuron.state seen))
                 ⊘ Float.of_int (Z.of_nat (length seen)))
              + (random.choice (-1) [0; 1] g_i).1))%Z)) ∧
  ∀ g2,
    let moved := spatial_updates cfg nbh ns g2 in
    let g2_i := (for_each (seq 0 i) (spatial_update cfg nbh) ns g2).2 in
    let seen2 := live_view i moved.1 ns refs in
    map Neuron.state seen2 = map Neuron.state (deref ns refs) ∧
    moved.1 !! i
    = Some (jitter cfg
              (foldl (λ a m,
                        let dx := Neuron.x m ⊖ Neuron.x a in
                        let dy := Neuron.y m ⊖ Neuron.y a in
                        if (Neuron.state n =? Neuron.state m)%Z
                        then Neuron.set_y (Neuron.set_x a (Neuron.x a ⊕ DRIFT cfg ⊗ dx))
                                          (Neuron.y a ⊕ DRIFT cfg ⊗ dy)
                        else Neuron.set_y (Neuron.set_x a (Neuron.x a ⊖ DRIFT cfg ⊗ dx))
                                          (Neuron.y a ⊖ DRIFT cfg ⊗ dy))
                     n seen2)
              g2_i).1.
Proof.
  intros Hn. cbv zeta.
  assert (Hi : i < length ns) by (by eapply lookup_lt_Some).
  destruct (for_each_seq_at (state_update nbh) (state_update_local nbh)
              (length ns) i ns g Hi) as (Hlt & Hge & Hat).
  cbv zeta in Hlt, Hge, Hat. fold (state_updates nbh ns g) in Hlt, Hat.
  set (before := for_each (seq 0 i) (state_update nbh) ns g) in *.
  rewrite <- (deref_live_view before.1 _ ns i _ Hlt Hge).
  assert (Hbi : before.1 !! i = Some n) by (rewrite Hge by lia; done).
  assert (Hfinal : (state_updates nbh ns g).1 !! i
                   = Some (let s := (next_state n (deref before.1 (neighborhood nbh i))
                                       before.2).1 in
                           Neuron.set_memory (Neuron.set_state n s) s)).
  { rewrite Hat. by apply state_update_at. }
  split; [exact Hfinal|]. split.
  - intros Hph Hne. rewrite Hfinal. cbv zeta. cbn [fmap option_fmap option_map].
    f_equal. unfold Neuron.set_memory, Neuron.set_state. cbn [Neuron.state].
    unfold next_state. rewrite Hph.
    destruct (deref before.1 (neighborhood nbh i)) as [|m ms] eqn:E; [done|].
    cbv zeta. rewrite bind_eq. unfold ret. cbn [fst]. reflexivity.
  - intros g2.
    destruct (for_each_seq_at (spatial_update cfg nbh) (spatial_update_local cfg nbh)
                (length ns) i ns g2 Hi) as (Hlt2 & Hge2 & Hat2).
    cbv zeta in Hlt2, Hge2, Hat2. fold (spatial_updates cfg nbh ns g2) in Hlt2, Hat2.
    set (before2 := for_each (seq 0 i) (spatial_update cfg nbh) ns g2) in *.
    rewrite <- (deref_live_view before2.1 _ ns i _ Hlt2 Hge2).
    split.
    + apply deref_states. intros j.
      pose proof (spatial_prefix_core cfg nbh ns g2 i j) as Hc.
      fold before2 in Hc.
      destruct (before2.1 !! j) as [a|], (ns !! j) as [b|]; simplify_eq/=; try done.
      unfold core in Hc. congruence.
    + assert (Hb2 : before2.1 !! i = Some n) by (rewrite Hge2 by lia; done).
      rewrite Hat2, (spatial_update_at _ _ _ _ _ _ Hb2). do 3 f_equal.
      generalize (deref before2.1 (neighborhood nbh i)). intros l.
      assert (Hgen : ∀ a, Neuron.state a = Neuron.state n →
        foldl (drift cfg) a l
        = foldl (λ a m,
                   let dx := Neuron.x m ⊖ Neuron.x a in
                   let dy := Neuron.y m ⊖ Neuron.y a in
                   if (Neuron.state n =? Neuron.state m)%Z
                   then Neuron.set_y (Neuron.set_x a (Neuron.x a ⊕ DRIFT cfg ⊗ dx))
                                     (Neuron.y a ⊕ DRIFT cfg ⊗ dy)
                   else Neuron.set_y (Neuron.set_x a (Neuron.x a ⊖ DRIFT cfg ⊗ dx))
                                     (Neuron.y a ⊖ DRIFT cfg ⊗ dy)) a l).
      { induction l as [|m l IH]; intros a Ha; [done|].
        cbn [foldl]. rewrite IH.
        - f_equal. unfold drift. cbv zeta. by rewrite Ha.
        - pose proof (drift_core cfg a m) as Hc. unfold core in Hc. congruence. }
      by apply Hgen.
Qed.

Lemma passes_read_live_states_witness :
  Neuron.state <$> (state_updates trio_neighborhoods trio_classified trio_mutated.2).1 !! 2
  = Some 3%Z.
Proof.
  assert (E : trio_classified !! 2 = Some (Neuron.mk (1 # 4) (1 # 8) 3 LIQUID 3))
    by (vm_compute; reflexivity).
  destruct (passes_read_live_states source_config trio_neighborhoods trio_classified
              trio_mutated.2 2 _ E) as (_ & H & _).
  rewrite H; [vm_compute; reflexivity | reflexivity | vm_compute; discriminate].
Defined.

(** C3 fails as stated.  On [trio_tape] the first three neurons start
    with the states 1, 2 and 3 and are neighbours of each other.  In the
    first step the third one is LIQUID and the two before it have both
    been given state 3 when its turn comes: the program computes its
    new state from the mean 3 and gives it 3, where the states the step
    began with, 1 and 2, have the mean 1.5 and give 2.  The positions
    differ as well, the spatial pass comparing the new states. *)
Lemma state_pass_reads_updated_neighbors :
  take 3 (map Neuron.state (neurons trio_start.1)) = [1; 2; 3]%Z ∧
  take 3 (map Neuron.phase trio_classified) = [LIQUID; PLASMA; LIQUID] ∧
  after (λ w, take 3 (map Neuron.state (neurons w)))
        (run series_math source_config 1 trio_tape)
  = inr [3; 3; 3]%Z ∧
  after (λ w, take 3 (map Neuron.state (neurons w)))
        (update_frozen series_math source_config 0 trio_start.1 trio_start.2)
  = inr [3; 3; 2]%Z ∧
  after (λ w, Neuron.x <$> neurons w !! 0)
        (run series_math source_config 1 trio_tape)
  = inr (Some (20299 # 160000)) ∧
  after (λ w, Neuron.x <$> neurons w !! 0)
        (update_frozen series_math source_config 0 trio_start.1 trio_start.2)
  = inr (Some (19699 # 160000)).
Proof.
  split; [|split; [|split; [|split; [|split]]]]; vm_compute; reflexivity.
Qed.

(* ------------------------------------------------------------------ *)
(** ** Cluster detection *)

Lemma scan_from radius n (visited : gset nat) (l : list (nat * Neuron.t))
    (cluster : gset nat) (to_check : list nat) :
  (foldl (scan_step radius n visited) (cluster, to_check) l).2
  = rev (map fst (List.filter (seed_test radius n visited) l)) ++ to_check.
Proof.
  revert cluster to_check.
  induction l as [|[j m] l IH]; intros cluster to_check; [done|].
  cbn [foldl List.filter]. unfold scan_step at 2.
  change (bool_decide (j ∉ visited) && bool_decide (Neuron.state n = Neuron.state m)
          && Neuron.distance_lt n (Neuron.x m) (Neuron.y m) radius)
    with (seed_test radius n visited (j, m)).
  destruct (seed_test radius n visited (j, m)).
  - rewrite IH. cbn [map fst rev]. by rewrite <- app_assoc.
  - apply IH.
Qed.

Lemma scan_neurons_stack ns radius n visited cluster to_check :
  (scan_neurons ns radius n visited cluster to_check).2
  = rev (candidates ns radius n visited) ++ to_check.
Proof. unfold scan_neurons, candidates. apply scan_from. Qed.

Lemma filter_length_mono {A} (f f' : A → bool) (l : list A) :
  (∀ a, f' a = true → f a = true) →
  length (List.filter f' l) ≤ length (List.filter f l).
Proof.
  intros H. induction l as [|a l IH]; simpl; [done|].
  destruct (f' a) eqn:E'; [rewrite (H a E'); simpl; lia|].
  destruct (f a); simpl; lia.
Qed.

Lemma filter_length_strict {A} (f f' : A → bool) (l : list A) (x : A) :
  (∀ a, f' a = true → f a = true) →
  x ∈ l → f x = true → f' x = false →
  length (List.filter f' l) < length (List.filter f l).
Proof.
  intros H Hin Hx Hx'. induction l as [|a l IH]; [by apply elem_of_nil in Hin|].
  apply elem_of_cons in Hin as [<-|Hin]; simpl.
  - rewrite Hx, Hx'. simpl. pose proof (filter_length_mono f f' l H). lia.
  - specialize (IH Hin). destruct (f' a) eqn:E'; [rewrite (H a E'); simpl; lia|].
    destruct (f a); simpl; lia.
Qed.

Lemma seed_test_mono radius n (visited : gset nat) idx jm :
  seed_test radius n ({[idx]} ∪ visited) jm = true →
  seed_test radius n visited jm = true.
Proof.
  unfold seed_test. rewrite !andb_true_iff, !bool_decide_eq_true.
  intros [[Hv ?] ?]. repeat split; try done.
  intros Hin. apply Hv. apply elem_of_union. by right.
Qed.

Lemma candidates_shrink ns radius n (visited : gset nat) idx :
  length (candidates ns radius n ({[idx]} ∪ visited))
  ≤ length (candidates ns radius n visited).
Proof.
  unfold candidates. rewrite !length_map.
  apply filter_length_mono. intros jm. apply seed_test_mono.
Qed.

Lemma candidates_shrink_strict ns radius n (visited : gset nat) idx :
  idx ∈ candidates ns radius n visited →
  length (candidates ns radius n ({[idx]} ∪ visited))
  < length (candidates ns radius n visited).
Proof.
  unfold candidates. rewrite !length_map. intros Hin.
  apply list_elem_of_fmap in Hin as ([j m] & -> & Hin).
  apply list_elem_of_In, List.filter_In in Hin as [Hin Ht].
  apply (filter_length_strict _ _ _ (j, m)).
  - intros jm. apply seed_test_mono.
  - by apply list_elem_of_In.
  - exact Ht.
  - unfold seed_test. cbn [fst snd].
    rewrite bool_decide_eq_false_2; [done|].
    intros Hn. apply Hn. apply elem_of_union. left. by apply elem_of_singleton.
Qed.

Lemma candidates_length ns radius n visited :
  length (candidates ns radius n visited) ≤ length ns.
Proof.
  unfold candidates. rewrite length_map.
  etrans; [apply filter_length_bound|]. unfold enumerate. by rewrite length_imap.
Qed.

(** The [while] loop ends within the passes it is given. *)
Lemma drain_total ns radius n fuel :
  ∀ (visited cluster : gset nat) (to_check : list nat),
  match to_check with
  | [] => True
  | idx :: _ => idx ∈ candidates ns radius n visited
                ∨ candidates ns radius n visited = []
  end →
  length (candidates ns radius n visited) * length (candidates ns radius n visited)
    + length to_check ≤ fuel →
  is_Some (drain_to_check fuel ns radius n visited cluster to_check).
Proof.
  induction fuel as [|fuel IH]; intros visited cluster to_check Hhead Hfuel.
  - destruct to_check; [by eexists|]. simpl in Hfuel. lia.
  - destruct to_check as [|idx rest]; [by eexists|].
    cbn [drain_to_check].
    destruct (scan_neurons ns radius n ({[idx]} ∪ visited) cluster rest)
      as [cluster' to_check'] eqn:E.
    pose proof (scan_neurons_stack ns radius n ({[idx]} ∪ visited) cluster rest) as Hs.
    rewrite E in Hs. cbn [snd] in Hs. subst to_check'.
    pose proof (candidates_shrink ns radius n visited idx) as Hle.
    remember (candidates ns radius n ({[idx]} ∪ visited)) as c' eqn:Ec'.
    remember (candidates ns radius n visited) as c eqn:Ec.
    apply IH; rewrite <- Ec'.
    + destruct (rev c') as [|top l] eqn:Er.
      * destruct rest; [done|]. right.
        apply (f_equal length) in Er. rewrite length_rev in Er.
        by apply nil_length_inv.
      * left. cbn [app]. apply list_elem_of_In, in_rev. rewrite Er. by left.
    + rewrite length_app, length_rev. cbn [length] in Hfuel.
      destruct Hhead as [Hin|Hnil].
      * rewrite Ec in Hin.
        pose proof (candidates_shrink_strict ns radius n visited idx Hin) as Hlt.
        rewrite <- Ec', <- Ec in Hlt. nia.
      * rewrite Hnil in Hle, Hfuel. cbn [length] in Hle, Hfuel.
        assert (length c' = 0) by lia. nia.
Qed.

Lemma distance_self n ox oy radius :
  Neuron.distance_lt n ox oy radius = true →
  Neuron.distance_lt n (Neuron.x n) (Neuron.y n) radius = true.
Proof.
  unfold Neuron.distance_lt, Float.hypot_lt.
  rewrite !andb_true_iff, !ltb_lt. intros [Hr _]. split; [done|].
  unfloat. pose proof (Qmult_lt_0_compat _ _ Hr Hr) as Hrr.
  assert (E : ((Neuron.x n - Neuron.x n) * (Neuron.x n - Neuron.x n)
               + (Neuron.y n - Neuron.y n) * (Neuron.y n - Neuron.y n) == 0)%Q)
    by ring.
  by rewrite E.
Qed.

Lemma seed_is_candidate ns radius n (visited : gset nat) i :
  ns !! i = Some n → i ∉ visited →
  i ∈ candidates ns radius n visited ∨ candidates ns radius n visited = [].
Proof.
  intros Hi Hv.
  destruct (Neuron.distance_lt n (Neuron.x n) (Neuron.y n) radius) eqn:Hd.
  - left. unfold candidates. apply list_elem_of_fmap. exists (i, n). split; [done|].
    apply list_elem_of_In, List.filter_In. split.
    + apply list_elem_of_In. unfold enumerate. apply elem_of_lookup_imap. by exists i, n.
    + unfold seed_test. cbn [fst snd].
      rewrite Hd, !bool_decide_eq_true_2; done.
  - right. unfold candidates.
    destruct (List.filter _ _) as [|[j m] l] eqn:E; [done|].
    assert (Hin : In (j, m) (List.filter (seed_test radius n visited) (enumerate ns)))
      by (rewrite E; by left).
    apply List.filter_In in Hin as [_ Ht]. unfold seed_test in Ht.
    apply andb_true_iff in Ht as [_ Ht]. apply distance_self in Ht. congruence.
Qed.

Lemma cluster_seeds_total ns radius fuel seeds :
  ∀ (visited : gset nat) (clusters : list (gset nat)),
  (∀ i n, (i, n) ∈ seeds → ns !! i = Some n) →
  length ns * length ns + 1 ≤ fuel →
  is_Some (cluster_seeds fuel ns radius seeds visited clusters).
Proof.
  induction seeds as [|[i n] seeds IH]; intros visited clusters Hseeds Hfuel.
  - by eexists.
  - cbn [cluster_seeds].
    assert (Hrest : ∀ i n, (i, n) ∈ seeds → ns !! i = Some n)
      by (intros; apply Hseeds; by right).
    case_bool_decide as Hv; [by apply IH|].
    destruct (drain_total ns radius n fuel visited {[i]} [i]) as [[v c] ->].
    + apply seed_is_candidate; [|done]. apply Hseeds. by left.
    + pose proof (candidates_length ns radius n visited). cbn [length]. nia.
    + by apply IH.
Qed.

(** [detect_clusters] returns for every population and radius. *)
Lemma detect_clusters_total ns radius : is_Some (detect_clusters ns radius).
Proof.
  unfold detect_clusters. apply cluster_seeds_total; [|lia].
  intros i n Hin. unfold enumerate in Hin.
  apply elem_of_lookup_imap in Hin as (j & m & E & Hj). by simplify_eq.
Qed.

(** C4 on the chain.  The three neurons have the same state; the first
    and the second are linked, and so are the second and the third, so
    the first and the third are connected by a path of links.  The
    program compares every neuron with the one that seeded the cluster,
    and the third is not within the radius of the first: it returns the
    clusters {0, 1} and {2}. *)
Theorem detect_clusters_splits_chain :
  detect_clusters chain (1 # 4) = Some [ {[0; 1]}; {[2]} ] ∧
  connected chain (1 # 4) 0 2 ∧
  ¬ same_cluster [ {[0; 1]}; {[2]} ] 0 2.
Proof.
  split; [|split].
  - vm_compute. reflexivity.
  - apply (rtc_l _ 0 1 2); [|apply rtc_once].
    + exists (Neuron.mk 0 0 1 LIQUID 1), (Neuron.mk (3 # 16) 0 1 LIQUID 1).
      repeat split.
    + exists (Neuron.mk (3 # 16) 0 1 LIQUID 1), (Neuron.mk (3 # 8) 0 1 LIQUID 1).
      repeat split.
  - intros (c & Hc & Hfirst & Hthird).
    apply elem_of_cons in Hc as [->|Hc].
    { apply elem_of_union in Hthird as [H|H];
        apply elem_of_singleton in H; discriminate. }
    apply elem_of_cons in Hc as [->|Hc].
    { apply elem_of_singleton in Hfirst. discriminate. }
    by apply elem_of_nil in Hc.
Qed.

(* ------------------------------------------------------------------ *)
(** ** The program's own constants *)

Lemma run_O M cfg g : run M cfg 0 g = inr (init_world cfg g).
Proof. reflexivity. Qed.

Lemma run_S M cfg k g :
  run M cfg (S k) g =
    match run M cfg k g with
    | inl e => inl e
    | inr (w, g') => update M cfg (Z.of_nat k) w g'
    end.
Proof. reflexivity. Qed.

Lemma init_world_fields cfg g :
  length (neurons (init_world cfg g).1) = Z.to_nat (NUM_NEURONS cfg) ∧
  predator (init_world cfg g).1 = None ∧
  predator_timer (init_world cfg g).1 = PREDATOR_INTERVAL cfg ∧
  spider (init_world cfg g).1 = TensionSpider.default.
Proof.
  unfold init_world. rewrite bind_eq. unfold ret.
  cbn [fst neurons predator predator_timer spider].
  split; [apply make_neurons_length|done].
Qed.

(* ------------------------------------------------------------------ *)
(** ** Positions *)

Lemma mod1_range (q : Q) : in_unit (Float.mod1 q).
Proof.
  unfold in_unit, Float.mod1. rewrite !Qred_correct.
  pose proof (Qfloor_le q) as Hle. pose proof (Qlt_floor q) as Hlt.
  rewrite inject_Z_plus in Hlt. change (inject_Z 1) with 1%Q in Hlt.
  split; lra.
Qed.

Lemma random_in_unit g : in_unit (random.random g).1.
Proof. destruct (random_range g) as [H0 H1]. split; [exact H0|lra]. Qed.

Lemma init_wrapped g : wrapped (Neuron.init g).1.
Proof.
  unfold Neuron.init. rewrite !bind_eq. unfold ret; cbn [fst].
  split; cbn [Neuron.x Neuron.y]; apply random_in_unit.
Qed.

Lemma make_neurons_wrapped k g n : n ∈ (make_neurons k g).1 → wrapped n.
Proof.
  revert g. induction k as [|k IH]; intros g Hn.
  - by apply elem_of_nil in Hn.
  - simpl in Hn. rewrite !bind_eq in Hn. unfold ret in Hn. cbn [fst] in Hn.
    apply elem_of_cons in Hn as [->|Hn]; [apply init_wrapped|by eapply IH].
Qed.

Lemma jitter_wrapped cfg n g : wrapped (jitter cfg n g).1.
Proof.
  unfold jitter. rewrite !bind_eq. unfold ret; cbn [fst].
  split; cbn [Neuron.x Neuron.y Neuron.set_x Neuron.set_y]; apply mod1_range.
Qed.

Lemma spatial_updates_wrapped cfg nbh ns g n :
  n ∈ (spatial_updates cfg nbh ns g).1 → wrapped n.
Proof.
  intros Hin. apply list_elem_of_lookup in Hin as [i Hi].
  assert (Hlt : i < length ns).
  { rewrite <- (spatial_updates_length cfg nbh ns g). by eapply lookup_lt_Some. }
  destruct (for_each_seq_at (spatial_update cfg nbh) (spatial_update_local cfg nbh)
              (length ns) i ns g Hlt) as (_ & Hge & Hat).
  fold (spatial_updates cfg nbh ns g) in Hat. rewrite Hat in Hi. clear Hat.
  destruct (ns !! i) as [n0|] eqn:Hn; [|apply lookup_ge_None in Hn; lia].
  rewrite (spatial_update_at _ _ _ _ _ n0) in Hi by (rewrite Hge by lia; done).
  injection Hi as <-. apply jitter_wrapped.
Qed.

Lemma update_wrapped M cfg frame w g w' g' :
  update M cfg frame w g = inr (w', g') →
  ∀ n, n ∈ neurons w' → wrapped n.
Proof.
  intros H. apply update_fields in H as (ns0 & Hpoke & H). cbv zeta in H.
  destruct H as (Hn & _ & _ & _ & _). intros n Hin. rewrite Hn in Hin.
  match type of Hin with
  | context [predator_interaction M cfg ?pred ?ns ?g2] =>
      pose proof (predator_interaction_cases M cfg pred ns g2) as Hcase;
      destruct pred as [p|]
  end.
  - cbv zeta in Hcase. rewrite Hcase in Hin. cbn [fst] in Hin.
    apply hunt_subset in Hin. by eapply spatial_updates_wrapped.
  - rewrite Hcase in Hin. cbn [fst] in Hin. by eapply spatial_updates_wrapped.
Qed.

(** X1.  After any number of steps every neuron has both coordinates in
    [0, 1], ends included: the initial positions are draws of
    [random()], and every step ends the move of every neuron with a
    wrap modulo 1. *)
Theorem positions_wrapped M cfg k g w g' :
  run M cfg k g = inr (w, g') →
  ∀ n, n ∈ neurons w → wrapped n.
Proof.
  destruct k as [|k]; intros H.
  - rewrite run_O in H. injection H as H. unfold init_world in H.
    rewrite bind_eq in H. unfold ret in H. injection H as <- _.
    cbn [neurons]. intros n. apply make_neurons_wrapped.
  - rewrite run_S in H. destruct (run M cfg k g) as [e|[w0 g0]]; [discriminate|].
    by eapply update_wrapped.
Qed.

Lemma positions_wrapped_witness : Forall wrapped (neurons next_world.1).
Proof.
  apply Forall_forall.
  apply (positions_wrapped series_math source_config 1 still_tape
           next_world.1 next_world.2).
  vm_compute; reflexivity.
Defined.

(* ------------------------------------------------------------------ *)
(** ** The predator's record and the population *)

(** The hunt loop from any accumulator and any predator at the place of
    [p]. *)
Lemma hunt_fold cfg p ns acc q :
  Predator.x q = Predator.x p → Predator.y q = Predator.y p →
  foldl (λ '(remaining_neurons, p) n,
           if Neuron.distance_lt n (Predator.x p) (Predator.y p) (PREDATOR_RADIUS cfg)
           then (remaining_neurons, Predator.eat p)
           else (remaining_neurons ++ [n], p)) (acc, q) ns
  = (acc ++ List.filter (out_of_reach cfg (Predator.x p) (Predator.y p)) ns,
     Predator.mk (Predator.x p) (Predator.y p)
       (Predator.neurons_eaten q + Z.of_nat (length ns)
        - Z.of_nat (length (List.filter (out_of_reach cfg (Predator.x p) (Predator.y p)) ns)))
       (if (length (List.filter (out_of_reach cfg (Predator.x p) (Predator.y p)) ns)
            =? length ns)%nat
        then Predator.hunger_timer q else 0%Z)).
Proof.
  revert acc q. induction ns as [|n ns IH]; intros acc q Hx Hy.
  - simpl. rewrite app_nil_r. destruct q; simpl in *. subst. f_equal. f_equal. lia.
  - cbn [foldl List.filter length]. rewrite Hx, Hy.
    change (out_of_reach cfg (Predator.x p) (Predator.y p) n)
      with (negb (Neuron.distance_lt n (Predator.x p) (Predator.y p) (PREDATOR_RADIUS cfg))).
    pose proof (filter_length_bound (out_of_reach cfg (Predator.x p) (Predator.y p)) ns)
      as Hb.
    destruct (Neuron.distance_lt n (Predator.x p) (Predator.y p) (PREDATOR_RADIUS cfg));
      cbn [negb].
    + rewrite (IH acc (Predator.eat q) Hx Hy). f_equal. f_equal.
      * cbn [Predator.eat Predator.neurons_eaten]. lia.
      * cbn [Predator.eat Predator.hunger_timer].
        destruct (Nat.eqb_spec (length (List.filter (out_of_reach cfg (Predator.x p) (Predator.y p)) ns)) (S (length ns))); [lia|].
        by destruct (_ =? _)%nat.
    + rewrite (IH (acc ++ [n]) q Hx Hy), <- app_assoc.
      f_equal. f_equal; cbn [length]; first [lia|done].
Qed.

(** X4.  The hunt keeps, in their order, exactly the neurons that are
    not within [PREDATOR_RADIUS] of the predator; the predator stays
    where it is, its count grows by the number of neurons removed, and
    its hunger is reset to 0 if it ate at least one neuron and is left
    alone otherwise. *)
Theorem hunt_outcome cfg p ns :
  let kept := List.filter (out_of_reach cfg (Predator.x p) (Predator.y p)) ns in
  hunt cfg p ns
  = (kept,
     Predator.mk (Predator.x p) (Predator.y p)
       (Predator.neurons_eaten p + Z.of_nat (length ns) - Z.of_nat (length kept))
       (if (length kept =? length ns)%nat then Predator.hunger_timer p else 0%Z)).
Proof.
  cbv zeta. unfold hunt.
  by rewrite (hunt_fold cfg p ns [] p eq_refl eq_refl).
Qed.

Lemma move_sound M cfg p g :
  in_unit (Predator.x (Predator.move M cfg p g).1) ∧
  in_unit (Predator.y (Predator.move M cfg p g).1) ∧
  Predator.neurons_eaten (Predator.move M cfg p g).1 = Predator.neurons_eaten p ∧
  Predator.hunger_timer (Predator.move M cfg p g).1 = (Predator.hunger_timer p + 1)%Z.
Proof.
  unfold Predator.move. rewrite !bind_eq.
  destruct (1 <.? Float.of_int (Predator.hunger_timer p) ⊘ 50);
    rewrite ?bind_eq; unfold ret; cbn [fst snd];
    [destruct (_ <.? 1 # 5); rewrite ?bind_eq; unfold ret; cbn [fst snd]|];
    cbn [Predator.x Predator.y Predator.neurons_eaten Predator.hunger_timer];
    repeat split; first [apply random_in_unit | apply mod1_range].
Qed.

Lemma tension_low (h : Z) :
  (h <= 50)%Z → (1 <.? Float.of_int h ⊘ 50) = false.
Proof.
  intros Hh. apply ltb_ge. rewrite div_correct. unfold Float.of_int.
  apply Qle_shift_div_r; [reflexivity|].
  rewrite Zle_Qle in Hh. change (inject_Z 50) with 50%Q in Hh. lra.
Qed.

(** X5.  A predator whose hunger timer is at most 50 never teleports: its
    move draws one random number, the heading, steps by
    [PREDATOR_SPEED * (1 + 2 * hunger / 50)] along it, wraps both
    coordinates and adds one to the hunger timer. *)
Theorem move_steps_while_fed M cfg p g :
  (Predator.hunger_timer p <= 50)%Z →
  Predator.move M cfg p g
  = (let angle := (random.uniform 0 (2 ⊗ pi M) g).1 in
     let speed := PREDATOR_SPEED cfg
                    ⊗ (1 ⊕ Float.of_int (Predator.hunger_timer p) ⊘ 50 ⊗ 2) in
     Predator.mk (Float.mod1 (Predator.x p ⊕ speed ⊗ cos M angle))
                 (Float.mod1 (Predator.y p ⊕ speed ⊗ sin M angle))
                 (Predator.neurons_eaten p) (Predator.hunger_timer p + 1),
     mkRng (tape g) (S (cursor g))).
Proof.
  intros Hh. unfold Predator.move. rewrite !bind_eq, (tension_low _ Hh).
  unfold ret. cbn [fst snd]. cbv zeta. reflexivity.
Qed.

Lemma move_steps_while_fed_witness :
  (Predator.move series_math source_config (Predator.mk 0 0 0 0) zero_tape).2
  = mkRng (tape zero_tape) 1.
Proof.
  rewrite (move_steps_while_fed series_math source_config (Predator.mk 0 0 0 0)
             zero_tape); [reflexivity|].
  vm_compute; discriminate.
Defined.

Lemma init_sound g : predator_sound (Predator.init g).1.
Proof.
  unfold Predator.init. rewrite !bind_eq. unfold ret. cbn [fst].
  repeat split; try apply random_in_unit; done.
Qed.

Lemma update_predator_sound M cfg frame w g w' g' :
  (∀ p, predator w = Some p → predator_sound p) →
  update M cfg frame w g = inr (w', g') →
  ∀ p, predator w' = Some p → predator_sound p.
Proof.
  intros Hw H. apply update_fields in H as (ns0 & Hpoke & H). cbv zeta in H.
  destruct H as (_ & Hp & _ & _ & _). intros p' Hp'. rewrite Hp in Hp'. clear Hp.
  assert (Hs : ∀ p, (spawn_predator cfg (predator w) (predator_timer w) g).1.1 = Some p →
                    predator_sound p).
  { intros p. destruct (spawn_cases cfg (predator w) (predator_timer w) g)
      as [[_ ->]|[_ ->]]; cbn [fst].
    - intros [= <-]. apply init_sound.
    - apply Hw. }
  match type of Hp' with
  | context [predator_interaction M cfg ?pred ?ns ?g2] =>
      pose proof (predator_interaction_cases M cfg pred ns g2) as Hcase;
      destruct pred as [p|]
  end.
  - cbv zeta in Hcase. rewrite Hcase in Hp'. cbn [fst snd] in Hp'.
    injection Hp' as <-.
    match goal with |- context [hunt cfg ?q ?l] =>
      unfold hunt; rewrite (hunt_fold cfg q l [] q eq_refl eq_refl) end.
    cbn [snd].
    destruct (move_sound M cfg p g) as (_ & _ & _ & _).
    match goal with |- context [Predator.move M cfg p ?g2] =>
      destruct (move_sound M cfg p g2) as (Hx & Hy & He & Hh) end.
    destruct (Hs p eq_refl) as (_ & _ & He0 & Hh0).
    match goal with |- context [List.filter ?f ?l] =>
      pose proof (filter_length_bound f l) as Hb end.
    repeat split; cbn [Predator.x Predator.y
      Predator.neurons_eaten Predator.hunger_timer]; try apply Hx; try apply Hy.
    + lia.
    + case_match; lia.
  - rewrite Hcase in Hp'. discriminate.
Qed.

(** X2.  After any number of steps the predator, when there is one, has
    both coordinates in [0, 1], ends included, a hunger timer that is
    not negative and an eaten count that is not negative. *)
Theorem predator_stays_sound M cfg k g w g' :
  run M cfg k g = inr (w, g') →
  ∀ p, predator w = Some p → predator_sound p.
Proof.
  revert w g'. induction k as [|k IH]; intros w g' H.
  - rewrite run_O in H. injection H as H.
    destruct (init_world_fields cfg g) as (_ & Hp & _). rewrite H in Hp.
    cbn [fst] in Hp. intros p Hp'. congruence.
  - rewrite run_S in H. destruct (run M cfg k g) as [e|[w0 g0]]; [discriminate|].
    eapply update_predator_sound; [|exact H]. by eapply IH.
Qed.

Lemma predator_stays_sound_witness :
  predator_sound (Predator.mk (83 # 160) (1 # 2) 20 0).
Proof.
  apply (predator_stays_sound series_math source_config 101 still_tape
           hunted_world.1 hunted_world.2); vm_compute; reflexivity.
Defined.

(** X3.  After any number of steps the surviving population and the
    eaten count of the current predator together never exceed the
    initial population size: no neuron is created and none is counted
    twice. *)
Theorem population_conserved M cfg k g w g' :
  run M cfg k g = inr (w, g') →
  (0 <= eaten_count w)%Z ∧
  (Z.of_nat (length (neurons w)) + eaten_count w
   <= Z.of_nat (Z.to_nat (NUM_NEURONS cfg)))%Z.
Proof.
  revert w g'. induction k as [|k IH]; intros w g' H.
  - rewrite run_O in H. injection H as H.
    destruct (init_world_fields cfg g) as (Hl & Hp & _). rewrite H in Hl, Hp.
    cbn [fst] in Hl, Hp. unfold eaten_count. rewrite Hp, Hl. lia.
  - rewrite run_S in H.
    destruct (run M cfg k g) as [e|[w0 g0]]; [discriminate|].
    destruct (IH w0 g0 eq_refl) as [H0 Hsum].
    destruct (update_predator _ _ _ _ _ _ _ H) as (Hlen & Hpos & Hneg).
    unfold eaten_count in *.
    destruct (Z.lt_ge_cases 0 (predator_timer w0)) as [Hgt|Hle].
    + destruct (Hpos Hgt) as [_ Hp]. destruct (predator w0) as [p|].
      * destruct Hp as (p' & -> & ->). lia.
      * destruct Hp as [-> Hl]. lia.
    + destruct (Hneg Hle) as (_ & p' & -> & ->).
      destruct (predator w0); lia.
Qed.

Lemma population_conserved_witness :
  (Z.of_nat (length (neurons hunted_world.1)) + eaten_count hunted_world.1 <= 20)%Z.
Proof.
  destruct (population_conserved series_math source_config 101 still_tape
              hunted_world.1 hunted_world.2) as [_ H].
  - vm_compute; reflexivity.
  - exact H.
Defined.

(* ------------------------------------------------------------------ *)
(** ** Neighbourhoods *)

Lemma enumerate_elem {A} (l : list A) (j : nat) (a : A) :
  (j, a) ∈ enumerate l ↔ l !! j = Some a.
Proof.
  unfold enumerate. rewrite elem_of_lookup_imap. split.
  - intros (i & b & E & Hi). by simplify_eq.
  - intros Hj. by exists j, a.
Qed.

Lemma distance_sym n m radius :
  Neuron.distance_lt n (Neuron.x m) (Neuron.y m) radius
  = Neuron.distance_lt m (Neuron.x n) (Neuron.y n) radius.
Proof.
  unfold Neuron.distance_lt, Float.hypot_lt. f_equal.
  apply ltb_proper; [|reflexivity]. unfloat. ring.
Qed.

Lemma distance_radius n ox oy radius :
  Neuron.distance_lt n ox oy radius = true → (0 < radius)%Q.
Proof.
  unfold Neuron.distance_lt, Float.hypot_lt.
  rewrite andb_true_iff, ltb_lt. tauto.
Qed.

Lemma neighbors_of_elem cfg ns i n j :
  j ∈ neighbors_of cfg ns i n ↔
  ∃ m, ns !! j = Some m ∧ j ≠ i ∧
       Neuron.distance_lt n (Neuron.x m) (Neuron.y m) (RADIUS cfg) = true.
Proof.
  unfold neighbors_of. rewrite list_elem_of_fmap. split.
  - intros ([j' m] & -> & Hin).
    apply list_elem_of_In, List.filter_In in Hin as [Hin Ht].
    apply list_elem_of_In, enumerate_elem in Hin.
    apply andb_true_iff in Ht as [Hd Hne].
    apply negb_true_iff, Nat.eqb_neq in Hne. by exists m.
  - intros (m & Hj & Hne & Hd). exists (j, m). split; [done|].
    apply list_elem_of_In, List.filter_In. split.
    + by apply list_elem_of_In, enumerate_elem.
    + rewrite Hd. cbn [andb]. by apply negb_true_iff, Nat.eqb_neq.
Qed.

Lemma neighborhood_discover cfg ns i n :
  ns !! i = Some n →
  neighborhood (discover cfg ns) i = neighbors_of cfg ns i n.
Proof.
  intros Hi. unfold neighborhood, discover.
  by rewrite list_lookup_imap, Hi.
Qed.

Lemma neighborhood_out cfg ns i :
  ns !! i = None → neighborhood (discover cfg ns) i = [].
Proof.
  intros Hi. unfold neighborhood, discover.
  by rewrite list_lookup_imap, Hi.
Qed.

Lemma deref_length (store : list Neuron.t) (refs : list nat) :
  (∀ r, r ∈ refs → r < length store) →
  length (deref store refs) = length refs.
Proof.
  unfold deref. induction refs as [|r refs IH]; intros H; [done|].
  cbn [omap list_omap].
  destruct (store !! r) eqn:E.
  - cbn [length]. f_equal. apply IH. intros r' Hr'. apply H. by right.
  - apply lookup_ge_None in E.
    assert (r < length store) by (apply H; left). lia.
Qed.

Lemma neighborhood_elem cfg ns i j :
  j ∈ neighborhood (discover cfg ns) i ↔
  ∃ n m, ns !! i = Some n ∧ ns !! j = Some m ∧ i ≠ j ∧
         Neuron.distance_lt n (Neuron.x m) (Neuron.y m) (RADIUS cfg) = true.
Proof.
  destruct (ns !! i) as [n|] eqn:Ha.
  - rewrite (neighborhood_discover _ _ _ _ Ha), neighbors_of_elem. split.
    + intros (m & Hb & Hne & Hd). exists n, m. by repeat split.
    + intros (n' & m & Hn' & Hb & Hne & Hd). simplify_eq. exists m. by repeat split.
  - rewrite (neighborhood_out _ _ _ Ha). split.
    + intros Hin. by apply elem_of_nil in Hin.
    + intros (n' & _ & Hn' & _). discriminate.
Qed.

(** X6.  Neighbourhood discovery gives neuron [i] the indices of the
    other neurons closer than [RADIUS] to it, and nothing else.  Being a
    neighbour is symmetric, no neuron is its own neighbour, and every
    reference in a neighbour list reads a neuron of the population. *)
Theorem discover_neighbors cfg ns i j :
  (j ∈ neighborhood (discover cfg ns) i ↔
   ∃ n m, ns !! i = Some n ∧ ns !! j = Some m ∧ i ≠ j ∧
          Neuron.distance_lt n (Neuron.x m) (Neuron.y m) (RADIUS cfg) = true) ∧
  (j ∈ neighborhood (discover cfg ns) i ↔ i ∈ neighborhood (discover cfg ns) j) ∧
  (i ∉ neighborhood (discover cfg ns) i) ∧
  length (deref ns (neighborhood (discover cfg ns) i))
  = length (neighborhood (discover cfg ns) i).
Proof.
  split; [apply neighborhood_elem|]. split; [|split].
  - rewrite !neighborhood_elem. split.
    + intros (n & m & Hi & Hj & Hne & Hd). exists m, n.
      repeat split; try done. by rewrite <- distance_sym.
    + intros (m & n & Hj & Hi & Hne & Hd). exists n, m.
      repeat split; try done. by rewrite distance_sym.
  - rewrite neighborhood_elem. intros (_ & _ & _ & _ & Hne & _). done.
  - apply deref_length. intros r Hr.
    apply neighborhood_elem in Hr as (_ & m & _ & Hm & _).
    by eapply lookup_lt_Some.
Qed.

(** The poke moves no neuron. *)
Lemma poke_positions cfg frame ns ns0 j :
  poke cfg frame ns = inr ns0 →
  (λ n, (Neuron.x n, Neuron.y n)) <$> ns0 !! j
  = (λ n, (Neuron.x n, Neuron.y n)) <$> ns !! j.
Proof.
  intros H.
  destruct (poke_cases cfg frame ns) as [[_ E]|[(_ & _ & E)|(_ & i & _ & E)]];
    rewrite E in H; simplify_eq; [done|].
  destruct (decide (j = i)) as [->|Hne].
  - rewrite list_lookup_alter_eq. by destruct (ns !! i).
  - by rewrite list_lookup_alter_ne.
Qed.

(** What the classification pass leaves at index [i]. *)
Lemma classified_lookup cfg frame w ns1 i n :
  classified cfg frame w = inr ns1 →
  ns1 !! i = Some n →
  ∃ ns0 n0,
    poke cfg frame (neurons w) = inr ns0 ∧ ns0 !! i = Some n0 ∧
    n = TensionSpider.apply (spider w) n0
          (deref ns0 (neighborhood (discover cfg ns0) i)).
Proof.
  intros Hc Hi. unfold classified in Hc.
  destruct (poke cfg frame (neurons w)) as [e|ns0] eqn:Hpoke; [discriminate|].
  injection Hc as <-.
  assert (Hlt : i < length ns0).
  { rewrite <- (phase_updates_length (spider w) (discover cfg ns0)).
    by eapply lookup_lt_Some. }
  destruct (ns0 !! i) as [n0|] eqn:E0; [|apply lookup_ge_None in E0; lia].
  rewrite (phase_updates_lookup _ _ _ _ _ E0) in Hi. injection Hi as Hn.
  by exists ns0, n0.
Qed.

(** X7.  A neuron that has no other neuron within [RADIUS] when a step
    begins comes out of the classification pass of that step as PLASMA,
    whatever its state and whatever the spider. *)
Theorem isolated_is_plasma cfg frame w ns1 i n :
  classified cfg frame w = inr ns1 →
  ns1 !! i = Some n →
  (∀ j m, neurons w !! j = Some m → j ≠ i →
     Neuron.distance_lt n (Neuron.x m) (Neuron.y m) (RADIUS cfg) = false) →
  Neuron.phase n = PLASMA.
Proof.
  intros Hc Hi Hfar.
  destruct (classified_lookup _ _ _ _ _ _ Hc Hi) as (ns0 & n0 & Hpoke & E0 & Hn).
  assert (Hxy : Neuron.x n = Neuron.x n0 ∧ Neuron.y n = Neuron.y n0).
  { rewrite Hn. split; apply apply_keeps. }
  destruct Hxy as [Hx0 Hy0].
  assert (Hnil : neighborhood (discover cfg ns0) i = []).
  { destruct (neighborhood (discover cfg ns0) i) as [|j l] eqn:E; [done|].
    assert (Hj : j ∈ neighborhood (discover cfg ns0) i) by (rewrite E; left).
    apply neighborhood_elem in Hj as (n' & m & Hn' & Hm & Hne & Hd).
    simplify_eq.
    pose proof (poke_positions cfg frame (neurons w) ns0 j Hpoke) as Hpos.
    rewrite Hm in Hpos. destruct (neurons w !! j) as [m'|] eqn:Em; [|done].
    injection Hpos as Hx Hy.
    specialize (Hfar j m' Em (not_eq_sym Hne)).
    unfold Neuron.distance_lt in Hfar, Hd. rewrite Hx0, Hy0, <- Hx, <- Hy in Hfar.
    congruence. }
  rewrite Hn, Hnil. reflexivity.
Qed.

Lemma isolated_is_plasma_witness :
  Neuron.phase (Neuron.mk (1 # 2) (1 # 2) 2 PLASMA 2) = PLASMA.
Proof.
  apply (isolated_is_plasma source_config 0 lone_world
           [Neuron.mk (1 # 2) (1 # 2) 2 PLASMA 2] 0).
  - vm_compute; reflexivity.
  - reflexivity.
  - intros j m Hj Hne. destruct j as [|j]; [done|]. by destruct j.
Defined.

(** X8.  With a radius that is not positive no neuron ever has a
    neighbour: the classification pass of every step makes every neuron
    PLASMA. *)
Theorem nonpositive_radius_all_plasma cfg frame w ns1 :
  (RADIUS cfg <= 0)%Q →
  classified cfg frame w = inr ns1 →
  ∀ n, n ∈ ns1 → Neuron.phase n = PLASMA.
Proof.
  intros Hr Hc n Hin. apply list_elem_of_lookup in Hin as [i Hi].
  destruct (classified_lookup _ _ _ _ _ _ Hc Hi) as (ns0 & n0 & _ & _ & ->).
  destruct (neighborhood (discover cfg ns0) i) as [|j l] eqn:E; [reflexivity|].
  assert (Hj : j ∈ neighborhood (discover cfg ns0) i) by (rewrite E; left).
  apply neighborhood_elem in Hj as (n' & m & _ & _ & _ & Hd).
  apply distance_radius in Hd. lra.
Qed.

Lemma nonpositive_radius_all_plasma_witness :
  Forall (λ n, Neuron.phase n = PLASMA) careless_classified.
Proof.
  apply Forall_forall.
  apply (nonpositive_radius_all_plasma careless_config 0
           (init_world careless_config zero_tape).1).
  - vm_compute; discriminate.
  - vm_compute; reflexivity.
Defined.

(* ------------------------------------------------------------------ *)
(** ** The spider's bands *)

(** X9.  The classification pass does not depend on the order in which
    it visits the neurons: every neuron gets the phase [apply] computes
    from the neighbours as they were before the pass, and keeps its
    position, state and memory. *)
Theorem phase_pass_order_independent sp nbh ns i n :
  ns !! i = Some n →
  ∃ n', phase_updates sp nbh ns !! i = Some n' ∧
        n' = TensionSpider.apply sp n (deref ns (neighborhood nbh i)) ∧
        Neuron.x n' = Neuron.x n ∧ Neuron.y n' = Neuron.y n ∧
        Neuron.state n' = Neuron.state n ∧ Neuron.memory n' = Neuron.memory n.
Proof.
  intros Hi. eexists. split; [by apply phase_updates_lookup|].
  split; [done|]. apply apply_keeps.
Qed.

Lemma phase_pass_order_independent_witness :
  Neuron.phase <$> phase_updates TensionSpider.default [[1]; [0; 2]; [1]] chain !! 0
  = Some SOLID.
Proof.
  destruct (phase_pass_order_independent TensionSpider.default [[1]; [0; 2]; [1]]
              chain 0 (Neuron.mk 0 0 1 LIQUID 1) eq_refl) as (n' & -> & -> & _).
  vm_compute; reflexivity.
Defined.

(** X10.  After any number of steps the thresholds of the spider lie in
    the mutation bands, ends included: [solid_thresh] from 0.1 to 0.4
    and [plasma_thresh] from 0.6 to 0.9; the defaults 0.2 and 0.8 lie
    in them too. *)
Theorem thresholds_in_bands M cfg k g w g' :
  run M cfg k g = inr (w, g') → in_bands (spider w).
Proof.
  revert w g'. induction k as [|k IH]; intros w g' H.
  - rewrite run_O in H. injection H as H.
    destruct (init_world_fields cfg g) as (_ & _ & _ & Hs). rewrite H in Hs.
    cbn [fst] in Hs. rewrite Hs. unfold in_bands, TensionSpider.default.
    cbn [TensionSpider.solid_thresh TensionSpider.plasma_thresh].
    repeat split; lra.
  - rewrite run_S in H. destruct (run M cfg k g) as [e|[w0 g0]]; [discriminate|].
    specialize (IH w0 g0 eq_refl).
    apply update_fields in H as (ns0 & _ & H). cbv zeta in H.
    destruct H as (_ & _ & _ & -> & _).
    match goal with |- context [plasma_mutate_spider ?ns ?sp ?g] =>
      destruct (mutate_cases ns sp g) as [->|Hb] end; [exact IH|].
    destruct Hb as (H1 & H2 & H3 & H4). unfold in_bands. repeat split; lra.
Qed.

Lemma thresholds_in_bands_witness : in_bands (spider next_world.1).
Proof.
  apply (thresholds_in_bands series_math source_config 1 still_tape
           next_world.1 next_world.2).
  vm_compute; reflexivity.
Defined.

Lemma Zsum_const (l : list Z) (v : Z) :
  (∀ a, a ∈ l → a = v) → Zsum l = (Z.of_nat (length l) * v)%Z.
Proof.
  induction l as [|a l IH]; intros H; [done|].
  cbn [Zsum fold_right length]. fold (Zsum l).
  rewrite IH by (intros; apply H; by right).
  rewrite (H a) by left. lia.
Qed.

Lemma Qsum_zero (l : list Q) :
  (∀ q, q ∈ l → (q == 0)%Q) → (Qsum l == 0)%Q.
Proof.
  induction l as [|q l IH]; intros H; [reflexivity|].
  cbn [Qsum fold_right]. fold (Qsum l).
  rewrite IH by (intros; apply H; by right).
  rewrite (H q) by left. reflexivity.
Qed.

Lemma variance_const (l : list Z) (v : Z) :
  l ≠ [] → (∀ a, a ∈ l → a = v) → (population_variance l == 0)%Q.
Proof.
  intros Hne Hall. unfold population_variance.
  assert (Hlen : ¬ (inject_Z (Z.of_nat (length l)) == 0)%Q).
  { destruct l; [done|]. unfold Qeq. simpl. lia. }
  assert (Hmu : (inject_Z (Zsum l) / inject_Z (Z.of_nat (length l)) == inject_Z v)%Q).
  { rewrite (Zsum_const l v Hall), inject_Z_mult. by field. }
  rewrite Qsum_zero; [by field|].
  intros q Hq. apply list_elem_of_fmap in Hq as (a & -> & Ha).
  rewrite Hmu, (Hall a Ha). ring.
Qed.

(** X11.  A spider whose [solid_thresh] is positive, as the default
    one and every mutated one are, classifies a neuron whose neighbours
    all have the same state as SOLID: the variance of equal states is
    0. *)
Theorem uniform_neighbors_solid sp n neighbors v :
  (0 < TensionSpider.solid_thresh sp)%Q →
  neighbors ≠ [] →
  (∀ m, m ∈ neighbors → Neuron.state m = v) →
  Neuron.phase (TensionSpider.apply sp n neighbors) = SOLID.
Proof.
  intros Hlo Hne Hall.
  destruct neighbors as [|m ms]; [done|].
  rewrite apply_phase_cons. cbv zeta.
  assert (Hv : (TensionSpider.variance (map Neuron.state (m :: ms)) == 0)%Q).
  { rewrite variance_correct. apply (variance_const _ v); [done|].
    intros a Ha. apply list_elem_of_fmap in Ha as (m' & -> & Hm'). by apply Hall. }
  assert (Hlt : (TensionSpider.variance (map Neuron.state (m :: ms))
                 <.? TensionSpider.solid_thresh sp) = true).
  { apply ltb_lt. rewrite Hv. exact Hlo. }
  by rewrite Hlt.
Qed.

Lemma uniform_neighbors_solid_witness :
  Neuron.phase
    (TensionSpider.apply TensionSpider.default (Neuron.mk 0 0 1 LIQUID 1)
       [Neuron.mk 0 0 2 LIQUID 2; Neuron.mk (1 # 2) 0 2 SOLID 2])
  = SOLID.
Proof.
  apply (uniform_neighbors_solid TensionSpider.default _ _ 2%Z).
  - reflexivity.
  - discriminate.
  - intros m Hm. apply elem_of_cons in Hm as [->|Hm]; [done|].
    apply list_elem_of_singleton in Hm as ->. done.
Defined.

(* ------------------------------------------------------------------ *)
(** ** The poke and the spawn schedule *)

(** X12.  At the poke step, for a target index from [-len] to [len - 1],
    the poke succeeds and changes one neuron only, the one at the target
    index counted from the end when negative: it gets state
    [POKE_VALUE] and phase LIQUID and keeps its position and its
    memory. *)
Theorem poke_effect cfg ns :
  (- Z.of_nat (length ns) <= POKE_NEURON cfg < Z.of_nat (length ns))%Z →
  ∃ ns', poke cfg (POKE_STEP cfg) ns = inr ns' ∧
    length ns' = length ns ∧
    ∀ j, ns' !! j =
         if decide (j = Z.to_nat (POKE_NEURON cfg `mod` Z.of_nat (length ns)))
         then (λ n, Neuron.mk (Neuron.x n) (Neuron.y n) (POKE_VALUE cfg) LIQUID
                              (Neuron.memory n)) <$> ns !! j
         else ns !! j.
Proof.
  intros Hrange. unfold poke. rewrite Z.eqb_refl.
  destruct (py_index ns (POKE_NEURON cfg)) as [i|] eqn:E.
  - eexists. split; [done|]. split; [apply length_alter|].
    assert (Hi : i = Z.to_nat (POKE_NEURON cfg `mod` Z.of_nat (length ns))).
    { unfold py_index in E. repeat case_match; simplify_eq.
      - rewrite Z.mod_small by lia. done.
      - f_equal. apply (Z.mod_unique _ _ (-1)); lia. }
    intros j. rewrite <- Hi. case_decide as Hj.
    + subst j. rewrite list_lookup_alter_eq. by destruct (ns !! i).
    + by rewrite list_lookup_alter_ne.
  - apply py_index_None in E. done.
Qed.

Lemma poke_effect_witness :
  ∃ ns', poke source_config 50 (neurons start_world.1) = inr ns' ∧ length ns' = 20.
Proof.
  destruct (poke_effect source_config (neurons start_world.1)) as (ns' & Hp & Hl & _).
  - assert (length (neurons start_world.1) = 20) as -> by (vm_compute; reflexivity).
    vm_compute. split; [discriminate|reflexivity].
  - exists ns'. split; [exact Hp|]. rewrite Hl. vm_compute; reflexivity.
Defined.

Lemma mod_succ (k m : Z) :
  (0 <= k)%Z → (0 < m)%Z →
  ((k + 1) `mod` m = if decide (k `mod` m + 1 = m) then 0 else k `mod` m + 1)%Z.
Proof.
  intros Hk Hm. pose proof (Z.mod_pos_bound k m Hm) as Hb.
  pose proof (Z.div_mod k m ltac:(lia)) as Hd.
  case_decide as Hc.
  - symmetry. apply (Z.mod_unique _ _ (k `div` m + 1)); [lia|].
    generalize dependent (k `mod` m)%Z. generalize dependent (k `div` m)%Z.
    intros; nia.
  - symmetry. apply (Z.mod_unique _ _ (k `div` m)); [lia|].
    generalize dependent (k `mod` m)%Z. generalize dependent (k `div` m)%Z.
    intros; nia.
Qed.

(** X14.  With an interval [I] that is not negative, the countdown after
    [k] steps is [I - k mod (I + 1)]: a predator enters at the steps
    [I], [2 I + 1], [3 I + 2] and so on, and there is none exactly up to
    the first of them. *)
Theorem spawn_schedule M cfg k g w g' :
  (0 <= PREDATOR_INTERVAL cfg)%Z →
  run M cfg k g = inr (w, g') →
  predator_timer w
  = (PREDATOR_INTERVAL cfg - Z.of_nat k `mod` (PREDATOR_INTERVAL cfg + 1))%Z ∧
  (predator w = None ↔ (Z.of_nat k <= PREDATOR_INTERVAL cfg)%Z).
Proof.
  intros HI. revert w g'. induction k as [|k IH]; intros w g' H.
  - rewrite run_O in H. injection H as H.
    destruct (init_world_fields cfg g) as (_ & Hp & Ht & _). rewrite H in Hp, Ht.
    cbn [fst] in Hp, Ht. rewrite Ht, Hp. rewrite Z.mod_0_l by lia.
    split; [lia|]. split; [lia|done].
  - rewrite run_S in H. destruct (run M cfg k g) as [e|[w0 g0]]; [discriminate|].
    destruct (IH w0 g0 eq_refl) as [Ht Hp].
    destruct (update_predator _ _ _ _ _ _ _ H) as (_ & Hpos & Hneg).
    pose proof (Z.mod_pos_bound (Z.of_nat k) (PREDATOR_INTERVAL cfg + 1) ltac:(lia)) as Hb.
    rewrite Nat2Z.inj_succ, <- Z.add_1_r, mod_succ by lia.
    assert (Hsmall : (Z.of_nat k <= PREDATOR_INTERVAL cfg →
                      Z.of_nat k `mod` (PREDATOR_INTERVAL cfg + 1) = Z.of_nat k)%Z)
      by (intros; apply Z.mod_small; lia).
    assert (Hbig : (Z.of_nat k `mod` (PREDATOR_INTERVAL cfg + 1) <= Z.of_nat k)%Z)
      by (apply Z.mod_le; lia).
    remember (Z.of_nat k `mod` (PREDATOR_INTERVAL cfg + 1))%Z as r eqn:Er.
    clear Er.
    case_decide as Hc.
    + destruct Hneg as (Ht' & p' & Hp' & _); [lia|].
      rewrite Ht', Hp'. split; [lia|]. split; [done|lia].
    + destruct Hpos as [Ht' Hp']; [lia|]. rewrite Ht'. split; [lia|].
      destruct (predator w0) as [p|].
      * destruct Hp' as (p' & -> & _). split; [done|].
        intros Hle. assert (Z.of_nat k <= PREDATOR_INTERVAL cfg)%Z by lia.
        apply Hp in H0. done.
      * destruct Hp' as [-> _]. split; [|done]. intros _.
        specialize (proj1 Hp eq_refl) as Hle. specialize (Hsmall Hle). lia.
Qed.

Lemma spawn_schedule_witness : predator_timer hunted_world.1 = 100%Z.
Proof.
  destruct (spawn_schedule series_math source_config 101 still_tape
              hunted_world.1 hunted_world.2) as [Ht _].
  - vm_compute; discriminate.
  - vm_compute; reflexivity.
  - rewrite Ht. vm_compute; reflexivity.
Defined.

(* ------------------------------------------------------------------ *)
(** ** Clusters as a partition *)

Lemma candidates_elem ns radius n (visited : gset nat) j :
  j ∈ candidates ns radius n visited ↔
  ∃ m, ns !! j = Some m ∧ (j ∉ visited) ∧ Neuron.state n = Neuron.state m ∧
       Neuron.distance_lt n (Neuron.x m) (Neuron.y m) radius = true.
Proof.
  unfold candidates. rewrite list_elem_of_fmap. split.
  - intros ([j' m] & -> & Hin).
    apply list_elem_of_In, List.filter_In in Hin as [Hin Ht].
    apply list_elem_of_In, enumerate_elem in Hin.
    unfold seed_test in Ht. cbn [fst snd] in Ht.
    rewrite !andb_true_iff, !bool_decide_eq_true in Ht.
    destruct Ht as [[? ?] ?]. by exists m.
  - intros (m & Hj & Hv & Hs & Hd). exists (j, m). split; [done|].
    apply list_elem_of_In, List.filter_In. split.
    + by apply list_elem_of_In, enumerate_elem.
    + unfold seed_test. cbn [fst snd].
      by rewrite Hd, !bool_decide_eq_true_2.
Qed.

Lemma scan_from_cluster radius n (visited : gset nat) (l : list (nat * Neuron.t))
    (cluster : gset nat) (to_check : list nat) j :
  j ∈ (foldl (scan_step radius n visited) (cluster, to_check) l).1 ↔
  j ∈ map fst (List.filter (seed_test radius n visited) l) ∨ j ∈ cluster.
Proof.
  revert cluster to_check.
  induction l as [|[j' m] l IH]; intros cluster to_check.
  - simpl. split; [by right|]. intros [H|H]; [by apply elem_of_nil in H|done].
  - cbn [foldl List.filter]. unfold scan_step at 2.
    change (bool_decide (j' ∉ visited) && bool_decide (Neuron.state n = Neuron.state m)
            && Neuron.distance_lt n (Neuron.x m) (Neuron.y m) radius)
      with (seed_test radius n visited (j', m)).
    destruct (seed_test radius n visited (j', m)).
    + rewrite IH. cbn [map fst]. rewrite elem_of_cons, elem_of_union, elem_of_singleton.
      tauto.
    + apply IH.
Qed.

Lemma scan_neurons_cluster ns radius n visited cluster to_check j :
  j ∈ (scan_neurons ns radius n visited cluster to_check).1 ↔
  j ∈ candidates ns radius n visited ∨ j ∈ cluster.
Proof. unfold scan_neurons, candidates. apply scan_from_cluster. Qed.

(** What the [while] loop returns: everything on [to_check] is marked,
    and so are the candidates found after the first pop, which also join
    the cluster. *)
Lemma drain_spec ns radius n fuel :
  ∀ (visited cluster : gset nat) (to_check : list nat) v' c',
  drain_to_check fuel ns radius n visited cluster to_check = Some (v', c') →
  match to_check with
  | [] => v' = visited ∧ c' = cluster
  | idx :: _ =>
      (∀ j, j ∈ v' ↔ j ∈ visited ∨ j ∈ to_check
                      ∨ j ∈ candidates ns radius n ({[idx]} ∪ visited)) ∧
      (∀ j, j ∈ c' ↔ j ∈ cluster
                      ∨ j ∈ candidates ns radius n ({[idx]} ∪ visited))
  end.
Proof.
  induction fuel as [|fuel IH]; intros visited cluster to_check v' c' H.
  - destruct to_check; [|discriminate]. simpl in H. by simplify_eq.
  - destruct to_check as [|idx rest]; [simpl in H; by simplify_eq|].
    cbn [drain_to_check] in H.
    destruct (scan_neurons ns radius n ({[idx]} ∪ visited) cluster rest)
      as [c1 s1] eqn:E.
    pose proof (scan_neurons_stack ns radius n ({[idx]} ∪ visited) cluster rest) as Hs.
    pose proof (scan_neurons_cluster ns radius n ({[idx]} ∪ visited) cluster rest) as Hc.
    rewrite E in Hs, Hc. cbn [fst snd] in Hs, Hc.
    specialize (IH _ _ _ _ _ H).
    assert (Hstack : ∀ j, j ∈ s1 ↔
              j ∈ candidates ns radius n ({[idx]} ∪ visited) ∨ j ∈ rest).
    { intros j. rewrite Hs, elem_of_app, !list_elem_of_In, <- in_rev. tauto. }
    destruct s1 as [|idx2 rest2].
    + destruct IH as [-> ->].
      assert (Hnone : ∀ j, (j ∉ candidates ns radius n ({[idx]} ∪ visited))
                           ∧ (j ∉ rest)).
      { intros j. split; intros Hj; apply (elem_of_nil j), Hstack; tauto. }
      split; intros j.
      * rewrite elem_of_union, elem_of_singleton, elem_of_cons.
        specialize (Hnone j). tauto.
      * rewrite Hc. tauto.
    + destruct IH as [Hv Hcl].
      assert (Hsub : ∀ j, j ∈ candidates ns radius n ({[idx2]} ∪ ({[idx]} ∪ visited)) →
                          j ∈ candidates ns radius n ({[idx]} ∪ visited)).
      { intros j. rewrite !candidates_elem. intros (m & ? & Hn & ? & ?).
        exists m. repeat split; try done.
        intros Hin. apply Hn. apply elem_of_union. by right. }
      split; intros j.
      * rewrite Hv, Hstack, elem_of_union, elem_of_singleton, elem_of_cons.
        specialize (Hsub j). tauto.
      * rewrite Hcl, Hc. specialize (Hsub j). tauto.
Qed.

Lemma snoc_lookup {A} (l : list A) (c x : A) (k : nat) :
  (l ++ [c]) !! k = Some x ↔ l !! k = Some x ∨ (k = length l ∧ x = c).
Proof.
  rewrite lookup_app_Some. split.
  - intros [H|[Hk H]]; [by left|right].
    destruct (k - length l) as [|d] eqn:E; simpl in H; [|done].
    simplify_eq. split; [lia|done].
  - intros [H|[-> ->]]; [by left|right].
    split; [lia|]. by rewrite Nat.sub_diag.
Qed.

Lemma cluster_seeds_spec ns radius fuel seeds :
  ∀ (visited : gset nat) (clusters res : list (gset nat)),
  (∀ i n, (i, n) ∈ seeds → ns !! i = Some n) →
  seeds_invariant ns radius visited clusters →
  cluster_seeds fuel ns radius seeds visited clusters = Some res →
  ∃ visited', seeds_invariant ns radius visited' res ∧
              (∀ j, j ∈ visited → j ∈ visited') ∧
              (∀ i n, (i, n) ∈ seeds → i ∈ visited').
Proof.
  induction seeds as [|[i n] seeds IH]; intros visited clusters res Hseeds Hinv H.
  - simpl in H. simplify_eq. exists visited. split; [done|]. split; [done|].
    intros i n Hin. by apply elem_of_nil in Hin.
  - cbn [cluster_seeds] in H.
    assert (Hrest : ∀ i n, (i, n) ∈ seeds → ns !! i = Some n)
      by (intros; apply Hseeds; by right).
    assert (Hi : ns !! i = Some n) by (apply Hseeds; left).
    case_bool_decide as Hv.
    + destruct (IH _ _ _ Hrest Hinv H) as (v' & Hinv' & Hmono & Hcov).
      exists v'. split; [done|]. split; [done|]. intros i' n' Hin.
      apply elem_of_cons in Hin as [[= -> ->]|Hin]; [by apply Hmono|by eapply Hcov].
    + destruct (drain_to_check fuel ns radius n visited {[i]} [i])
        as [[v1 c]|] eqn:Hd; [|discriminate].
      apply drain_spec in Hd as [Hv1 Hc].
      assert (Hc' : ∀ j, j ∈ c ↔ j = i ∨ j ∈ candidates ns radius n ({[i]} ∪ visited)).
      { intros j. by rewrite Hc, elem_of_singleton. }
      assert (Hv1' : ∀ j, j ∈ v1 ↔ j ∈ visited ∨ j ∈ c).
      { intros j. rewrite Hv1, Hc', list_elem_of_singleton. tauto. }
      assert (Hfresh : ∀ j, j ∈ c → j ∉ visited).
      { intros j Hj Hjv. apply Hc' in Hj as [->|Hj]; [done|].
        apply candidates_elem in Hj as (m & _ & Hn & _).
        apply Hn. apply elem_of_union. by right. }
      destruct Hinv as (Hu & Hdis & Hbound & Hstar).
      assert (Hinv1 : seeds_invariant ns radius v1 (clusters ++ [c])).
      { split; [|split; [|split]].
        - intros j. rewrite Hv1', Hu. split.
          + intros [(k & c0 & Hk & Hj)|Hj].
            * exists k, c0. split; [|done]. apply snoc_lookup. by left.
            * exists (length clusters), c. split; [|done]. apply snoc_lookup. by right.
          + intros (k & c0 & Hk & Hj). apply snoc_lookup in Hk as [Hk|[-> ->]].
            * left. by exists k, c0.
            * by right.
        - intros k1 k2 c1 c2 j Hk1 Hk2 Hj1 Hj2.
          apply snoc_lookup in Hk1 as [Hk1|[-> ->]];
            apply snoc_lookup in Hk2 as [Hk2|[-> ->]].
          + by eapply Hdis.
          + exfalso. apply (Hfresh j Hj2). apply Hu. by exists k1, c1.
          + exfalso. apply (Hfresh j Hj1). apply Hu. by exists k2, c2.
          + done.
        - intros c0 j Hc0 Hj. apply elem_of_app in Hc0 as [Hc0|Hc0].
          + by eapply Hbound.
          + apply list_elem_of_singleton in Hc0 as ->.
            apply Hc' in Hj as [->|Hj]; [by eapply lookup_lt_Some|].
            apply candidates_elem in Hj as (m & Hm & _). by eapply lookup_lt_Some.
        - intros c0 Hc0. apply elem_of_app in Hc0 as [Hc0|Hc0]; [by apply Hstar|].
          apply list_elem_of_singleton in Hc0 as ->.
          exists i, n. split; [done|]. split; [apply Hc'; by left|].
          intros j Hj. apply Hc' in Hj as [->|Hj]; [by left|right].
          apply candidates_elem in Hj as (m & Hm & _ & Hs & Hdist). by exists m. }
      destruct (IH _ _ _ Hrest Hinv1 H) as (v' & Hinv' & Hmono & Hcov).
      exists v'. split; [done|]. split.
      * intros j Hj. apply Hmono, Hv1'. by left.
      * intros i' n' Hin.
        apply elem_of_cons in Hin as [[= -> ->]|Hin]; [|by eapply Hcov].
        apply Hmono, Hv1'. right. apply Hc'. by left.
Qed.

(** X15.  [detect_clusters] always returns, and what it returns is a
    partition of the indices of the population: every neuron is in one
    cluster and in one only.  Every cluster is gathered around its
    seed: each member other than the seed has the state of the seed and
    is closer than [radius] to it. *)
Theorem detect_clusters_partition ns radius :
  ∃ clusters, detect_clusters ns radius = Some clusters ∧
    partitions (length ns) clusters ∧
    ∀ c, c ∈ clusters → star_around ns radius c.
Proof.
  destruct (detect_clusters_total ns radius) as [clusters H].
  exists clusters. split; [done|]. unfold detect_clusters in H.
  apply cluster_seeds_spec in H as (v' & (Hu & Hdis & Hbound & Hstar) & _ & Hcov).
  - split; [|done]. split; [|split; [done|done]].
    intros j Hj. apply Hu.
    destruct (lookup_lt_is_Some_2 ns j Hj) as [n Hn].
    apply (Hcov j n). by apply enumerate_elem.
  - intros i n. apply enumerate_elem.
  - split; [|split; [|split]].
    + intros j. split; [intros Hj; by apply elem_of_empty in Hj|].
      intros (k & c & Hk & _). by rewrite lookup_nil in Hk.
    + intros k1 k2 c1 c2 j Hk. by rewrite lookup_nil in Hk.
    + intros c j Hc. by apply elem_of_nil in Hc.
    + intros c Hc. by apply elem_of_nil in Hc.
Qed.

(* ------------------------------------------------------------------ *)
(** ** The state rule for SOLID neurons *)

Lemma state_updates_solid nbh ns g i n n' :
  ns !! i = Some n →
  (state_updates nbh ns g).1 !! i = Some n' →
  Neuron.phase n' = Neuron.phase n ∧
  (Neuron.phase n = SOLID → Neuron.state n' = Neuron.memory n).
Proof.
  intros Hn Hi.
  assert (Hlt : i < length ns) by (by eapply lookup_lt_Some).
  destruct (for_each_seq_at (state_update nbh) (state_update_local nbh)
              (length ns) i ns g Hlt) as (_ & Hge & Hat).
  fold (state_updates nbh ns g) in Hat. rewrite Hat in Hi. clear Hat.
  rewrite (state_update_at _ _ _ _ n) in Hi by (rewrite Hge by lia; done).
  injection Hi as <-. cbv zeta. split; [done|].
  intros Hs. cbn [Neuron.state Neuron.set_memory Neuron.set_state].
  unfold next_state. by rewrite Hs.
Qed.

(** X16.  A neuron that a step leaves SOLID has, after the step, the
    state that was in its memory when the step began, poked or not.
    The neurons are followed through the population as it is before
    the hunt, which has the size the step began with and of which the
    final population is a part, the whole of it when no predator is
    left. *)
Theorem solid_restores_memory M cfg frame w g w' g' :
  update M cfg frame w g = inr (w', g') →
  ∃ before_hunt,
    length before_hunt = length (neurons w) ∧
    (∀ n, n ∈ neurons w' → n ∈ before_hunt) ∧
    (predator w' = None → neurons w' = before_hunt) ∧
    ∀ i n0 n,
      neurons w !! i = Some n0 → before_hunt !! i = Some n →
      Neuron.phase n = SOLID → Neuron.state n = Neuron.memory n0.
Proof.
  intros H. apply update_fields in H as (ns0 & Hpoke & H). cbv zeta in H.
  destruct H as (Hn & Hp & _ & _ & _).
  set (s := spawn_predator cfg (predator w) (predator_timer w) g) in *.
  set (nbh := discover cfg ns0) in *.
  set (ns1 := phase_updates (spider w) nbh ns0) in *.
  set (m := plasma_mutate_spider ns1 (spider w) s.2) in *.
  set (st := state_updates nbh ns1 m.2) in *.
  set (ns3 := spatial_updates cfg nbh st.1 st.2) in *.
  pose proof (predator_interaction_cases M cfg s.1.1 ns3.1 ns3.2) as Hcase.
  exists ns3.1.
  split; [exact (passes_length cfg frame w ns0 m.2 st.2 Hpoke)|].
  assert (Hsub : (∀ n, n ∈ neurons w' → n ∈ ns3.1) ∧
                 (predator w' = None → neurons w' = ns3.1)).
  { destruct s.1.1 as [p|].
    - cbv zeta in Hcase. rewrite Hcase in Hn, Hp. cbn [fst snd] in Hn, Hp.
      split; [|congruence]. intros n Hin. rewrite Hn in Hin.
      by apply hunt_subset in Hin.
    - rewrite Hcase in Hn, Hp. cbn [fst snd] in Hn, Hp.
      split; [|done]. intros n Hin. by rewrite Hn in Hin. }
  destruct Hsub as [Hsub Hsame]. split; [exact Hsub|]. split; [exact Hsame|].
  clear Hcase Hn Hp Hsub Hsame.
  intros i n0 n Ew Hi Hsol.
  pose proof (spatial_updates_core cfg nbh st.1 st.2 i) as Hc.
  fold ns3 in Hc. rewrite Hi in Hc.
  destruct (st.1 !! i) as [n2|] eqn:E2; [|done].
  injection Hc as Hs Hph Hm.
  destruct (poke_keeps cfg frame (neurons w) ns0 Hpoke) as [Hlen Hmem].
  specialize (Hmem i). rewrite Ew in Hmem.
  destruct (ns0 !! i) as [n0'|] eqn:E0; [|done]. injection Hmem as Hmem.
  pose proof (phase_updates_lookup (spider w) nbh ns0 i n0' E0) as E1. fold ns1 in E1.
  destruct (state_updates_solid nbh ns1 m.2 i _ n2 E1 E2) as [Hph2 Hsolid].
  rewrite Hs, Hsolid by (rewrite <- Hph2; congruence).
  destruct (apply_keeps (spider w) n0' (deref ns0 (neighborhood nbh i)))
    as (_ & _ & _ & ->). done.
Qed.

Lemma solid_restores_memory_witness :
  ∃ before_hunt : list Neuron.t, length before_hunt = 20.
Proof.
  destruct (solid_restores_memory series_math source_config 0
              start_world.1 start_world.2 next_world.1 next_world.2)
    as (P & Hl & _).
  - vm_compute; reflexivity.
  - exists P. rewrite Hl. vm_compute; reflexivity.
Defined.
